(** * Prompt Mirror: the rule-based analyzer and rewriter of [logic.py]

    A shallow embedding of [t004_prompt_mirror/logic.py].  A Python [str] is
    a sequence of Unicode code points; the regular expressions of the module
    are values of a small pattern type whose matcher follows the backtracking
    order of Python's [re]; [analyze_prompt] and [rewrite_prompt] are
    translated function by function. *)

From Stdlib Require Import String Ascii.
From Stdlib Require Import List NArith ZArith Lia Bool Permutation Sorted.
Import ListNotations.

Local Open Scope N_scope.

(** ** Text *)

(** A character is its code point, a text the list of its code points, so
    that [length] is Python's [len]. *)
Definition char := N.
Definition str := list char.

(** A literal of the source, written with ASCII characters. *)
Definition txt (s : string) : str := map N_of_ascii (list_ascii_of_string s).

Definition nl : str := [10].

Fixpoint str_eqb (a b : str) : bool :=
  match a, b with
  | [], [] => true
  | x :: a', y :: b' => (x =? y) && str_eqb a' b'
  | _, _ => false
  end.

(** [a <= b] on texts: Python compares code point by code point. *)
Fixpoint str_leb (a b : str) : bool :=
  match a, b with
  | [], _ => true
  | _ :: _, [] => false
  | x :: a', y :: b' =>
      if x <? y then true else if y <? x then false else str_leb a' b'
  end.

(** [x in l] for a list or a set of texts. *)
Definition mem (x : str) (l : list str) : bool := existsb (str_eqb x) l.

(** [sep.join(items)]. *)
Fixpoint join (sep : str) (items : list str) : str :=
  match items with
  | [] => []
  | [x] => x
  | x :: rest => x ++ sep ++ join sep rest
  end.

Fixpoint starts_with (p s : str) : bool :=
  match p, s with
  | [], _ => true
  | x :: p', y :: s' => (x =? y) && starts_with p' s'
  | _ :: _, [] => false
  end.

(** [p in s] for two texts: [p] occurs in [s] as a contiguous run. *)
Fixpoint contains (p s : str) : bool :=
  starts_with p s ||
  match s with
  | [] => false
  | _ :: s' => contains p s'
  end.

(** ** Sorting

    [sorted] is stable.  [sort_by le] keeps the order of the elements that
    [le] relates both ways, which is what [sorted(..., key=k)] does with
    [le x y := k x <= k y] and [sorted(..., key=k, reverse=True)] with
    [le x y := k y <= k x]. *)
Section Sorting.
Context {A : Type} (le : A -> A -> bool).

Fixpoint insert_by (x : A) (l : list A) : list A :=
  match l with
  | [] => [x]
  | y :: l' => if le x y then x :: l else y :: insert_by x l'
  end.

Definition sort_by (l : list A) : list A := fold_right insert_by [] l.

End Sorting.

(** [sorted(l)] on texts and [sorted(l, key=len, reverse=True)]. *)
Definition sorted (l : list str) : list str := sort_by str_leb l.

Definition longest_first (l : list str) : list str :=
  sort_by (fun x y => Nat.leb (length y) (length x)) l.

(** ** The Unicode database

    [\s], [\d], [\w], [str.lower] and [re.IGNORECASE] look characters up in
    the interpreter's Unicode tables.  What those tables say about ASCII is
    written out below; what they say about the other code points is a
    parameter of the development. *)
Class Unicode := {
  uni_isspace : char -> bool;
  uni_isdecimal : char -> bool;
  uni_isalnum : char -> bool;
  uni_lower : str -> str;
  uni_ignorecase : char -> char -> bool
}.

Definition is_ascii (c : char) : bool := c <? 128.

Definition in_range (lo hi c : char) : bool := (lo <=? c) && (c <=? hi).

Definition ascii_lower (c : char) : char :=
  if in_range 65 90 c then c + 32 else c.

Section Text.
Context {U : Unicode}.

(** [str.isspace] on one character, also [\s]. *)
Definition isspace (c : char) : bool :=
  if is_ascii c then in_range 9 13 c || in_range 28 32 c else uni_isspace c.

(** [\d]. *)
Definition isdecimal (c : char) : bool :=
  if is_ascii c then in_range 48 57 c else uni_isdecimal c.

Definition isalnum (c : char) : bool :=
  if is_ascii c
  then in_range 48 57 c || in_range 65 90 c || in_range 97 122 c
  else uni_isalnum c || uni_isdecimal c.

(** [\w]. *)
Definition isword (c : char) : bool := isalnum c || (c =? 95).

(** [text.lower()]. *)
Definition lower (s : str) : str :=
  if forallb is_ascii s then map ascii_lower s else uni_lower s.

(** A pattern character [p] against a text character [c] under
    [re.IGNORECASE]. *)
Definition ignorecase_eqb (p c : char) : bool :=
  if is_ascii p && is_ascii c then ascii_lower p =? ascii_lower c
  else uni_ignorecase p c.

Fixpoint lstrip (s : str) : str :=
  match s with
  | c :: s' => if isspace c then lstrip s' else s
  | [] => []
  end.

Definition rstrip (s : str) : str := rev (lstrip (rev s)).

(** [s.strip()]. *)
Definition strip (s : str) : str := rstrip (lstrip s).

(** ** Regular expressions

    The fragment of [re] syntax that the module uses.  Every repetition in
    the source is over a single character class, so [Rep n p] stands for
    [p{n,}]: [p*] is [Rep 0 p] and [p+] is [Rep 1 p]. *)
Inductive regex : Type :=
| Eps
| Chr (c : char)
| Cls (p : char -> bool)
| Cat (a b : regex)
| Alt (a b : regex)
| Opt (a : regex)
| Rep (n : nat) (p : char -> bool)
| Bnd
| Bos.

(** A position in the subject: the character before it, if any, and the
    text from it on. *)
Definition cursor : Type := option char * str.

(** [\b]: exactly one of the two neighbours is a word character. *)
Definition at_boundary (st : cursor) : bool :=
  xorb (match fst st with Some c => isword c | None => false end)
       (match snd st with c :: _ => isword c | [] => false end).

Definition step_if (ok : char -> bool) (st : cursor) : list cursor :=
  match snd st with
  | c :: s => if ok c then [(Some c, s)] else []
  | [] => []
  end.

(** Greedy repetition: the longest run first, then each shorter one down
    to [n] characters. *)
Fixpoint reps (p : char -> bool) (n : nat) (prev : option char) (s : str)
  : list cursor :=
  let here := match n with O => [(prev, s)] | S _ => [] end in
  match s with
  | c :: s' => if p c then reps p (pred n) (Some c) s' ++ here else here
  | [] => here
  end.

(** [m ic r st]: the positions at which a match of [r] that starts at [st]
    can end, in the order in which the backtracking matcher reaches them.
    [ic] is [re.IGNORECASE]. *)
Fixpoint m (ic : bool) (r : regex) (st : cursor) : list cursor :=
  match r with
  | Eps => [st]
  | Chr c => step_if (if ic then ignorecase_eqb c else N.eqb c) st
  | Cls p => step_if p st
  | Cat a b => flat_map (m ic b) (m ic a st)
  | Alt a b => m ic a st ++ m ic b st
  | Opt a => m ic a st ++ [st]
  | Rep n p => reps p n (fst st) (snd st)
  | Bnd => if at_boundary st then [st] else []
  | Bos => match fst st with None => [st] | Some _ => [] end
  end.

(** [bool(pattern.search(s))]: some position starts a match. *)
Fixpoint search_from (ic : bool) (r : regex) (prev : option char) (s : str)
  : bool :=
  match m ic r (prev, s) with
  | _ :: _ => true
  | [] =>
      match s with
      | c :: s' => search_from ic r (Some c) s'
      | [] => false
      end
  end.

Definition search (ic : bool) (r : regex) (s : str) : bool :=
  search_from ic r None s.

(** The pieces into which the successive non-overlapping matches cut a
    text: a character outside every match, or a match. *)
Inductive piece : Type :=
| Gap (c : char)
| Hit (s : str).

Definition consumed (s : str) (st : cursor) : nat := length s - length (snd st).

(** [scan ic r prev s skip]: the scan of [re.sub] and [re.findall] from the
    position before [s], of which the first [skip] characters belong to the
    match found last.  After an empty match the scan looks again at the
    same position for a match that is not empty, then moves on. *)
Fixpoint scan (ic : bool) (r : regex) (prev : option char) (s : str)
  (skip : nat) : list piece :=
  match s with
  | [] =>
      match skip, m ic r (prev, s) with
      | O, _ :: _ => [Hit []]
      | _, _ => []
      end
  | c :: s' =>
      match skip with
      | S k => scan ic r (Some c) s' k
      | O =>
          let ends := map (consumed s) (m ic r (prev, s)) in
          match ends with
          | [] => Gap c :: scan ic r (Some c) s' 0
          | S k :: _ => Hit (firstn (S k) s) :: scan ic r (Some c) s' k
          | O :: _ =>
              Hit [] ::
              match find (fun n => negb (Nat.eqb n 0)) ends with
              | Some n => Hit (firstn n s) :: scan ic r (Some c) s' (pred n)
              | None => Gap c :: scan ic r (Some c) s' 0
              end
          end
      end
  end.

(** [re.findall(r, s)] for a pattern without groups. *)
Definition findall (ic : bool) (r : regex) (s : str) : list str :=
  flat_map (fun p => match p with Hit x => [x] | Gap _ => [] end)
           (scan ic r None s 0).

(** The text that [re.sub] builds from the pieces: the replacement for a
    match, the character itself otherwise. *)
Definition render (repl : str) (pieces : list piece) : str :=
  flat_map (fun p => match p with Hit _ => repl | Gap c => [c] end) pieces.

(** [re.sub(r, repl, s)] for a replacement without escapes. *)
Definition sub (ic : bool) (r : regex) (repl : str) (s : str) : str :=
  render repl (scan ic r None s 0).

(** Pattern builders: a literal text ([re.escape]), a sequence, and an
    alternation of literals. *)
Definition lit (s : str) : regex := fold_right (fun c r => Cat (Chr c) r) Eps s.

Definition seq (rs : list regex) : regex := fold_right Cat Eps rs.

Fixpoint alts (rs : list regex) : regex :=
  match rs with
  | [] => Rep 1 (fun _ => false)
  | [r] => r
  | r :: rest => Alt r (alts rest)
  end.

Definition words (ws : list string) : regex := alts (map (fun w => lit (txt w)) ws).

End Text.

(** ** The tables of [logic.py] *)

Definition AMBIGUOUS_TERMS : list str := map txt
  [ "help me with"; "help"; "assist"; "optimize"; "improve"; "better";
    "robust"; "flexible"; "scalable"; "easy"; "efficient"; "modern";
    "as needed"; "user friendly"; "marketing plan"; "strategy"; "nice" ]%string.

Definition VAGUE_QUANTIFIERS : list str := map txt
  [ "some"; "many"; "several"; "few"; "often"; "quickly"; "regularly";
    "usually"; "sometimes"; "various"; "numerous"; "couple"; "handful";
    "soon"; "asap" ]%string.

Definition AMBIGUOUS_REPLACEMENTS : list (str * str) :=
  map (fun kv => (txt (fst kv), txt (snd kv)))
  [ ("help me with", "create");
    ("help", "deliver");
    ("assist", "provide");
    ("optimize", "fine-tune");
    ("improve", "strengthen");
    ("better", "enhance");
    ("marketing plan", "go-to-market roadmap");
    ("strategy", "action blueprint");
    ("user friendly", "accessible for end users");
    ("modern", "contemporary") ]%string.

Definition STOPWORDS : list str := map txt
  [ "the"; "a"; "an"; "and"; "or"; "of"; "for"; "with"; "within"; "on";
    "in"; "to"; "into"; "me"; "my"; "our"; "your"; "their"; "this"; "that";
    "these"; "those"; "about"; "at"; "by"; "from"; "as"; "it"; "is"; "are";
    "be"; "need"; "needs"; "needed"; "please"; "would"; "could"; "should";
    "can"; "we"; "i" ]%string.

(** [dict.get(key, default)]. *)
Fixpoint get {V : Type} (d : list (str * V)) (key : str) (default : V) : V :=
  match d with
  | [] => default
  | (k, v) :: d' => if str_eqb k key then v else get d' key default
  end.

(** The elements of [set(l)], each once.  The order in which Python walks
    a set of texts changes from run to run; [set_elements] lists them in
    the order of their first occurrence, and [_find_terms_in] below takes
    any other order. *)
Fixpoint set_elements (l : list str) : list str :=
  match l with
  | [] => []
  | x :: l' => x :: filter (fun y => negb (str_eqb x y)) (set_elements l')
  end.

Section Patterns.
Context {U : Unicode}.

(** A literal phrase of a pattern. *)
Definition phrase (s : string) : regex := lit (txt s).

Definition any_char (c : char) : bool := true.

(** [\b(?:you are|act as)\b] *)
Definition ROLE_PATTERN : regex :=
  seq [Bnd; words ["you are"; "act as"]%string; Bnd].

(** [^\s*(write|draft|...|assess)\b] *)
Definition TASK_PATTERN : regex :=
  seq [Bos; Rep 0 isspace;
       words ["write"; "draft"; "plan"; "create"; "design"; "develop";
              "compare"; "summarize"; "analyze"; "build"; "outline";
              "generate"; "evaluate"; "produce"; "compose"; "audit";
              "assess"]%string;
       Bnd].

(** [\b(given|using|with (?:this|the)|based on|provided|attached|from)\b] *)
Definition INPUT_PATTERN : regex :=
  seq [Bnd;
       alts [phrase "given"; phrase "using";
             Cat (phrase "with ") (words ["this"; "the"]%string);
             phrase "based on"; phrase "provided"; phrase "attached"; phrase "from"];
       Bnd].

(** [(constraints?|assume|exclude|limit|deadline|budget|must|exactly|at least|no more than)] *)
Definition CONSTRAINT_PATTERN : regex :=
  alts [Cat (phrase "constraint") (Opt (phrase "s")); phrase "assume"; phrase "exclude";
        phrase "limit"; phrase "deadline"; phrase "budget"; phrase "must"; phrase "exactly";
        phrase "at least"; phrase "no more than"].

(** [\b(output|...|provide)\b.*\b(json|table|markdown|bullets?|list|outline|chart)\b]
    with [re.DOTALL] *)
Definition FORMAT_PATTERN : regex :=
  seq [Bnd;
       words ["output"; "return"; "respond"; "deliver"; "format"; "present";
              "provide"]%string;
       Bnd; Rep 0 any_char; Bnd;
       alts [phrase "json"; phrase "table"; phrase "markdown"; Cat (phrase "bullet") (Opt (phrase "s"));
             phrase "list"; phrase "outline"; phrase "chart"];
       Bnd].

(** [\b(example|for instance|eg:|e\.g\.)] *)
Definition EXAMPLE_PATTERN : regex :=
  seq [Bnd; words ["example"; "for instance"; "eg:"; "e.g."]%string].

(** [\b(step\s*\d+|steps|process|first|second|third|then|next|finally)\b] *)
Definition STEPS_PATTERN : regex :=
  seq [Bnd;
       alts [seq [phrase "step"; Rep 0 isspace; Rep 1 isdecimal];
             phrase "steps"; phrase "process"; phrase "first"; phrase "second"; phrase "third";
             phrase "then"; phrase "next"; phrase "finally"];
       Bnd].

(** [\b(success(?: criteria| when)?|acceptance|definition of done|done when|complete when)\b] *)
Definition SUCCESS_PATTERN : regex :=
  seq [Bnd;
       alts [Cat (phrase "success") (Opt (words [" criteria"; " when"]%string));
             phrase "acceptance"; phrase "definition of done"; phrase "done when";
             phrase "complete when"];
       Bnd].

(** [\b\d+(?:\.\d+)?\b] *)
Definition NUMERAL_PATTERN : regex :=
  seq [Bnd; Rep 1 isdecimal; Opt (seq [Chr 46; Rep 1 isdecimal]); Bnd].

(** [\b(?:it|this|that|they)\s+(?:is|are|was|were|should|must|can|will|need|needs)\b] *)
Definition DANGLING_PATTERN : regex :=
  seq [Bnd; words ["it"; "this"; "that"; "they"]%string; Rep 1 isspace;
       words ["is"; "are"; "was"; "were"; "should"; "must"; "can"; "will";
              "need"; "needs"]%string;
       Bnd].

Definition ascii_letter (c : char) : bool := in_range 97 122 c || in_range 65 90 c.

(** [[a-zA-Z][a-zA-Z\-]+] *)
Definition TOKEN_PATTERN : regex :=
  Cat (Cls ascii_letter) (Rep 1 (fun c => ascii_letter c || (c =? 45))).

(** The patterns of the whitespace clean-up: [\s+], [\s+\n], [\n\s+]
    and [ {2,}]. *)
Definition WHITESPACE : regex := Rep 1 isspace.

Definition SPACES_NEWLINE : regex := Cat (Rep 1 isspace) (Chr 10).

Definition NEWLINE_SPACES : regex := Cat (Chr 10) (Rep 1 isspace).

Definition SPACES : regex := Rep 2 (N.eqb 32).

End Patterns.

(** ** The analysis *)

Record Checks : Type := {
  has_role : bool;
  has_task : bool;
  has_inputs : bool;
  has_constraints : bool;
  has_format : bool;
  has_examples : bool;
  has_steps : bool;
  has_success_criteria : bool
}.

Record Flags : Type := {
  ambiguous_terms : list str;
  vague_quantifiers : list str;
  dangling_pronouns : Z
}.

Record Analysis : Type := {
  checks : Checks;
  flags : Flags;
  score : Z;
  notes : list str
}.

(** The [checks] dictionary as Python walks it: its eight keys in the order
    of the literal. *)
Definition items (c : Checks) : list (str * bool) :=
  [ (txt "has_role", has_role c);
    (txt "has_task", has_task c);
    (txt "has_inputs", has_inputs c);
    (txt "has_constraints", has_constraints c);
    (txt "has_format", has_format c);
    (txt "has_examples", has_examples c);
    (txt "has_steps", has_steps c);
    (txt "has_success_criteria", has_success_criteria c) ].

Definition values (c : Checks) : list bool := map snd (items c).

Definition missing_messages : list (str * str) :=
  map (fun kv => (txt (fst kv), txt (snd kv)))
  [ ("has_role", "Add a clear role statement such as 'You are a specific type of expert.'");
    ("has_task", "Start with an imperative task that describes the expected action.");
    ("has_inputs", "Reference the inputs or source material the assistant should rely on.");
    ("has_constraints", "List numeric or explicit constraints to narrow the solution space.");
    ("has_format", "Specify the output format (tables, bullets, JSON, etc.).");
    ("has_examples", "Provide concrete examples to anchor expectations.");
    ("has_steps", "Describe the process or steps the assistant should follow.");
    ("has_success_criteria", "Define what success looks like or how the result will be evaluated.") ]%string.

Definition fallback_note : str :=
  txt "Prompt already covers the fundamentals; refine tone or examples as needed.".

Definition _calculate_score (checks : Checks)
  (ambiguous_terms vague_quantifiers : list str) (dangling_pronouns : Z) : Z :=
  let base :=
    (Z.of_nat (length (filter (fun value => value) (values checks))) * 10)%Z in
  let penalty :=
    (5 * Z.of_nat (length ambiguous_terms)
     + 2 * Z.of_nat (length vague_quantifiers)
     + 3 * dangling_pronouns)%Z in
  let score := (base - penalty)%Z in
  Z.max 0 (Z.min 100 score).

Definition _build_notes (checks : Checks)
  (ambiguous_terms vague_quantifiers : list str) (dangling_pronouns : Z)
  : list str :=
  let notes :=
    flat_map
      (fun km => if negb (get (items checks) (fst km) false) then [snd km] else [])
      missing_messages in
  let notes :=
    match ambiguous_terms with
    | [] => notes
    | _ :: _ =>
        notes ++ [txt "Clarify or replace ambiguous terms: "
                  ++ join (txt ", ") (sorted ambiguous_terms) ++ txt "."]
    end in
  let notes :=
    match vague_quantifiers with
    | [] => notes
    | _ :: _ =>
        notes ++ [txt "Quantify vague language (specify counts, ranges, or timeframes) for: "
                  ++ join (txt ", ") (sorted vague_quantifiers) ++ txt "."]
    end in
  let notes :=
    if (dangling_pronouns =? 0)%Z then notes
    else notes ++ [txt "Resolve dangling pronouns (it/this/that/they) by naming the referent."] in
  match notes with
  | [] => [fallback_note]
  | _ :: _ => notes
  end.

Definition _normalize_terms (terms : list str) : list str :=
  fold_left
    (fun normalized term =>
       let term := if str_eqb term (txt "help me with") then txt "help" else term in
       if negb (mem term normalized) then normalized ++ [term] else normalized)
    terms [].

Section Analyzer.
Context {U : Unicode}.

Definition _has_constraints (text : str) : bool :=
  if search false NUMERAL_PATTERN text then true
  else search true CONSTRAINT_PATTERN text.

(** One turn of the loop of [_find_terms]. *)
Definition find_step (lowered : str) (found : list str) (term : str)
  : list str :=
  if search false (lit term) lowered
  then if existsb (fun existing => contains term existing) found
       then found
       else found ++ [term]
  else found.

(** [_find_terms] when the set of the terms is walked in the order
    [elements]. *)
Definition _find_terms_in (elements : list str) (text : str) : list str :=
  let lowered := lower text in
  sorted (fold_left (find_step lowered) (longest_first elements) []).

Definition _find_terms (text : str) (term_list : list str) : list str :=
  _find_terms_in (set_elements term_list) text.

Definition _count_dangling_pronouns (text : str) : Z :=
  Z.of_nat (length (findall true DANGLING_PATTERN text)).

(** [text or ""]. *)
Definition or_empty (text : str) : str :=
  match text with
  | [] => []
  | _ :: _ => text
  end.

Definition analyze_prompt (text : str) : Analysis :=
  let source := or_empty text in
  let checks :=
    {| has_role := search true ROLE_PATTERN source;
       has_task := search true TASK_PATTERN source;
       has_inputs := search true INPUT_PATTERN source;
       has_constraints := _has_constraints source;
       has_format := search true FORMAT_PATTERN source;
       has_examples := search true EXAMPLE_PATTERN source;
       has_steps := search true STEPS_PATTERN source;
       has_success_criteria := search true SUCCESS_PATTERN source |} in
  let ambiguous_terms := _normalize_terms (_find_terms source AMBIGUOUS_TERMS) in
  let vague_quantifiers := _find_terms source VAGUE_QUANTIFIERS in
  let dangling_pronouns := _count_dangling_pronouns source in
  let score :=
    _calculate_score checks ambiguous_terms vague_quantifiers dangling_pronouns in
  let notes :=
    _build_notes checks ambiguous_terms vague_quantifiers dangling_pronouns in
  {| checks := checks;
     flags := {| ambiguous_terms := ambiguous_terms;
                 vague_quantifiers := vague_quantifiers;
                 dangling_pronouns := dangling_pronouns |};
     score := score;
     notes := notes |}.

End Analyzer.

(** The tables for ASCII text: every other code point is a caseless symbol
    (not a space, a digit or a letter), as the en dash of the Constraints
    section is. *)
#[export] Instance plain_symbols : Unicode := {|
  uni_isspace := fun _ => false;
  uni_isdecimal := fun _ => false;
  uni_isalnum := fun _ => false;
  uni_lower := map ascii_lower;
  uni_ignorecase := N.eqb
|}.

(** ** Exceptions *)

Inductive error : Type :=
| ValueError (message : str)
| IndexError.

Inductive exc (A : Type) : Type :=
| Return (a : A)
| Raise (e : error).

Arguments Return {A} a.
Arguments Raise {A} e.

Definition bind {A B : Type} (c : exc A) (k : A -> exc B) : exc B :=
  match c with
  | Return a => k a
  | Raise e => Raise e
  end.

Notation "x <- c ;; k" := (bind c (fun x => k))
  (at level 61, c at next level, right associativity).

(** [l[i]] for [i >= 0]. *)
Definition index (l : list str) (i : nat) : exc str :=
  match nth_error l i with
  | Some x => Return x
  | None => Raise IndexError
  end.

(** ** The rewriter *)

(** [Counter(l)]: the count of each text, in the order of first
    occurrence. *)
Fixpoint count_up (word : str) (counts : list (str * nat)) : list (str * nat) :=
  match counts with
  | [] => [(word, 1%nat)]
  | (k, n) :: rest =>
      if str_eqb k word then (k, S n) :: rest else (k, n) :: count_up word rest
  end.

Definition Counter (l : list str) : list (str * nat) :=
  fold_left (fun counts word => count_up word counts) l [].

(** [counts.most_common(n)]: the [n] largest counts, equal counts in the
    order of first occurrence. *)
Definition most_common (n : nat) (counts : list (str * nat)) : list (str * nat) :=
  firstn n (sort_by (fun a b => Nat.leb (snd b) (snd a)) counts).

Definition _build_focus_phrase (keywords : list str) : exc str :=
  match keywords with
  | [] => Return (txt "project")
  | _ :: _ =>
      if mem (txt "startup") keywords && mem (txt "marketing") keywords
      then Return (txt "startup marketing initiative")
      else if Nat.eqb (length keywords) 1 then index keywords 0
      else k0 <- index keywords 0 ;;
           k1 <- index keywords 1 ;;
           Return (k0 ++ txt " " ++ k1)
  end.

Definition _build_audience_phrase (keywords : list str) : exc str :=
  if mem (txt "startup") keywords then Return (txt "early-stage startup team")
  else if mem (txt "students") keywords then Return (txt "student audience")
  else if mem (txt "executive") keywords || mem (txt "leadership") keywords
  then Return (txt "executive stakeholders")
  else match keywords with
       | _ :: _ =>
           k0 <- index keywords 0 ;;
           Return (txt "stakeholders focused on " ++ k0)
       | [] => Return (txt "target audience")
       end.

Definition _build_role_line (keywords : list str) : str :=
  if mem (txt "marketing") keywords
  then txt "You are a marketing strategist specializing in go-to-market execution for startups."
  else if mem (txt "product") keywords || mem (txt "design") keywords
  then txt "You are a product discovery lead who converts fuzzy requests into actionable briefs."
  else if mem (txt "sales") keywords
  then txt "You are a revenue operations advisor aligned with data-backed sales planning."
  else if mem (txt "content") keywords || mem (txt "writing") keywords
  then txt "You are an editorial architect who crafts structured content playbooks."
  else if mem (txt "analysis") keywords || mem (txt "analytics") keywords
  then txt "You are a data insights consultant focusing on evidence-based recommendations."
  else if mem (txt "engineering") keywords || mem (txt "software") keywords
  then txt "You are a delivery-focused engineering lead who defines crisp build briefs."
  else txt "You are a clarity coach who turns goals into precise, testable instructions.".

Definition _build_task_line (focus_phrase : str) : str :=
  txt "Construct a detailed go-to-market roadmap for the "
  ++ focus_phrase ++ txt ", highlighting decisions, rationales, and metrics.".

(** The second item holds an en dash, U+2013, between the two amounts. *)
Definition _build_constraints_section : str :=
  let items :=
    [ txt "- Highlight exactly 3 priority initiatives with owners.";
      txt "- Reference a budget range of $5,000" ++ [8211%N] ++ txt "$15,000 USD.";
      txt "- Assume a 30-day rollout timeline with weekly checkpoints." ] in
  txt "Constraints:" ++ nl ++ join nl items.

Definition _build_format_section : str :=
  let lines :=
    [ txt "- Return a markdown table with columns: Step, Owner, Channel, Rationale.";
      txt "- Follow with bullet points covering risks, assumptions, and next actions.";
      txt "- End with a short paragraph summarizing success metrics." ] in
  txt "Output Format:" ++ nl ++ join nl lines.

Definition _build_steps_section (focus_phrase : str) : str :=
  let steps :=
    [ txt "1. Clarify the audience and objectives for the " ++ focus_phrase ++ txt ".";
      txt "2. Audit existing assets and gaps using available inputs.";
      txt "3. Prioritize tactics against budget, timeline, and impact.";
      txt "4. Map messaging, channels, and ownership into the requested format.";
      txt "5. Define measurable KPIs and validation steps before concluding." ] in
  txt "Steps:" ++ nl ++ join nl steps.

Definition _build_success_section : str :=
  let bullets :=
    [ txt "- Recommendations align with the stated constraints and audience.";
      txt "- Output matches the markdown table and bullet list specification.";
      txt "- KPIs include clear numeric targets and monitoring cadence." ] in
  txt "Success Criteria:" ++ nl ++ join nl bullets.

Definition _build_refusal_section : str :=
  let lines :=
    [ txt "- Decline instructions that require unethical tactics or misuse of data.";
      txt "- Escalate if the request involves legal, medical, or financial compliance issues outside scope." ] in
  txt "Refusal Boundaries:" ++ nl ++ join nl lines.

Section Rewriter.
Context {U : Unicode}.

Definition AMBIGUOUS_SET : list str := map lower AMBIGUOUS_TERMS.
Definition VAGUE_SET : list str := map lower VAGUE_QUANTIFIERS.

Definition _extract_keywords (text : str) (limit : nat) : list str :=
  let tokens := findall false TOKEN_PATTERN (lower text) in
  let filtered :=
    filter
      (fun token =>
         negb (mem token STOPWORDS)
         && negb (mem token AMBIGUOUS_SET)
         && negb (mem token VAGUE_SET)
         && Nat.ltb 2 (length token))
      tokens in
  let counts := Counter filtered in
  map fst (most_common limit counts).

Definition _replace_ambiguous_terms (text : str) : str :=
  let result :=
    fold_left
      (fun result term =>
         let replacement := get AMBIGUOUS_REPLACEMENTS term [] in
         sub true (lit term) replacement result)
      (longest_first AMBIGUOUS_TERMS) text in
  let result := sub false SPACES_NEWLINE nl result in
  let result := sub false NEWLINE_SPACES nl result in
  let result := sub false SPACES (txt " ") result in
  strip result.

(** The value of [cleaned] in [_summarize_source]: the source stripped,
    its runs of whitespace turned into one space each, its ambiguous terms
    replaced. *)
Definition cleaned_source (source : str) : str :=
  let cleaned := sub false WHITESPACE (txt " ") (strip source) in
  _replace_ambiguous_terms cleaned.

Definition _summarize_source (source : str) : str :=
  match source with
  | [] => txt "No original request provided."
  | _ :: _ =>
      let cleaned := cleaned_source source in
      if Nat.leb (length cleaned) 140 then cleaned
      else firstn 137 cleaned ++ txt "..."
  end.

Definition _build_inputs_section (focus_phrase audience_phrase source : str)
  : str :=
  let summary := _summarize_source source in
  let items :=
    [ txt "- Primary focus: " ++ focus_phrase ++ txt ".";
      txt "- Audience/context: " ++ audience_phrase ++ txt ".";
      txt "- Source request recap: " ++ summary ] in
  txt "Inputs (brief):" ++ nl ++ join nl items.

(** The eight sections in the order of the list [sections]. *)
Definition sections_of (keywords : list str) (focus_phrase audience_phrase source : str)
  : list str :=
  [ txt "Role:" ++ nl ++ _build_role_line keywords;
    txt "Task:" ++ nl ++ _build_task_line focus_phrase;
    _build_inputs_section focus_phrase audience_phrase source;
    _build_constraints_section;
    _build_format_section;
    _build_steps_section focus_phrase;
    _build_success_section;
    _build_refusal_section ].

Definition rewrite_prompt (analysis : option Analysis) (text : str) : exc str :=
  match analysis with
  | None => Raise (ValueError (txt "analysis data is required for rewrite"))
  | Some _ =>
      let source := or_empty text in
      let keywords := _extract_keywords source 6 in
      focus_phrase <- _build_focus_phrase keywords ;;
      audience_phrase <- _build_audience_phrase keywords ;;
      let sections := sections_of keywords focus_phrase audience_phrase source in
      let rewritten := strip (join (nl ++ nl) sections) in
      let rewritten := _replace_ambiguous_terms rewritten in
      Return rewritten
  end.

End Rewriter.

(** * [export.py] *)

(** A byte string is the list of its bytes. *)
Definition bytes : Type := list N.

(** What [str.encode] gives: the bytes, or [UnicodeEncodeError] with the
    position of the character that has no encoding. *)
Inductive encoded : Type :=
| Encoded (b : bytes)
| UnicodeEncodeError (position : nat).

(** A character that UTF-8 encodes: a code point up to U+10FFFF that is
    no surrogate (U+D800 to U+DFFF). *)
Definition encodable (c : char) : bool :=
  (c <? 1114112) && negb (in_range 55296 57343 c).

(** The bytes of one character: [c / 64] is [c >> 6] and [c mod 64] is
    [c & 0x3f]. *)
Definition utf8_char (c : char) : bytes :=
  let x := c / 64 in
  let y := x / 64 in
  let z := y / 64 in
  if c <? 128 then [c]
  else if c <? 2048 then [192 + x; 128 + c mod 64]
  else if c <? 65536 then [224 + y; 128 + x mod 64; 128 + c mod 64]
  else [240 + z; 128 + y mod 64; 128 + x mod 64; 128 + c mod 64].

(** [s.encode("utf-8")], the text standing from position [position] on. *)
Fixpoint utf8_encode (position : nat) (s : str) : encoded :=
  match s with
  | [] => Encoded []
  | c :: s' =>
      if encodable c
      then match utf8_encode (S position) s' with
           | Encoded b => Encoded (utf8_char c ++ b)
           | UnicodeEncodeError p => UnicodeEncodeError p
           end
      else UnicodeEncodeError position
  end.

Definition to_txt (rewrite : str) : encoded :=
  let content := or_empty rewrite in
  utf8_encode 0 content.

(** * [llm.py], [schema.py] and the route of [app.py] *)

(** The truth value of a text in a condition: it is not empty. *)
Definition truthy (text : str) : bool :=
  match text with
  | [] => false
  | _ :: _ => true
  end.

Module llm.

Definition MAX_INPUT_CHARS : nat := 1200.

Definition _safe_trim (text : str) : str :=
  if truthy text && Nat.ltb MAX_INPUT_CHARS (length text)
  then firstn MAX_INPUT_CHARS text
  else or_empty text.

End llm.

(** A call that returns a value or raises an exception, of which the
    callers read the message only. *)
Inductive attempt (A : Type) : Type :=
| Returned (a : A)
| Raised (message : str).

Arguments Returned {A} a.
Arguments Raised {A} message.

Module schema.

Section Validation.

(** What the remote service answered, and the validation of it by the
    [PromptAnalysis] model, whose dump is an analysis. *)
Variable Candidate : Type.
Variable _model_validate : Candidate -> option Analysis.


End Validation.

End schema.

Module app.

Definition MAX_INPUT_CHARS : nat := 2000.



Section Route.
Context {U : Unicode}.

(** The two names that the import of [llm.py] binds, [None] when it
    failed, and the validator of [schema.py]. *)
Variable Candidate : Type.
Variable _model_validate : Candidate -> option Analysis.
Variable llm_analyze : option (str -> attempt (option Candidate)).
Variable llm_rewrite : option (Analysis -> str -> attempt (option str)).

(** The text that the route analyzes, and the notice about it. *)
Definition trimmed (raw_text : str) : str * option str :=
  if Nat.ltb MAX_INPUT_CHARS (length raw_text)
  then (firstn MAX_INPUT_CHARS raw_text,
        Some (txt "Input trimmed to 2000 characters."))
  else (raw_text, None).




End Route.

End app.

(** * Patterns compiled when the analysis runs

    The eight structural patterns are compiled when the module is loaded.
    Three more are compiled inside the analysis itself, from their text:
    the numeral of [_has_constraints], the escaped term of each turn of
    [_find_terms], and the pronoun pattern of [_count_dangling_pronouns].
    [re] raises [re.error] for a text that is no pattern, so these calls
    are where the analysis of a text could raise. *)

Inductive exception : Type :=
| re_error.

(** What a call does: it returns, it raises, or its pattern uses syntax
    beyond what is modelled here, about which nothing is said. *)
Inductive outcome (A : Type) : Type :=
| Returns (a : A)
| Raises (e : exception)
| Beyond.

Arguments Returns {A} a.
Arguments Raises {A} e.
Arguments Beyond {A}.

Definition and_then {A B : Type} (c : outcome A) (k : A -> outcome B)
  : outcome B :=
  match c with
  | Returns a => k a
  | Raises e => Raises e
  | Beyond => Beyond
  end.

Notation "x <~ c ;; k" := (and_then c (fun x => k))
  (at level 61, c at next level, right associativity).

Module re.

(** The flags that the module passes. *)
Record flags : Type := {
  IGNORECASE : bool;
  DOTALL : bool
}.

Definition no_flags : flags := {| IGNORECASE := false; DOTALL := false |}.

(** The characters that [re.escape] puts a backslash before:
    [()[]{}?*+-|^$\.&~# \t\n\r\v\f]. *)
Definition special : list char :=
  [40; 41; 91; 93; 123; 125; 63; 42; 43; 45; 124; 94; 36; 92; 46; 38; 126;
   35; 32; 9; 10; 13; 11; 12].

Definition is_special (c : char) : bool := existsb (N.eqb c) special.

(** [re.escape(s)]. *)
Definition escape (s : str) : str :=
  flat_map (fun c => if is_special c then [92; c] else [c]) s.

Section Compile.
Context {U : Unicode}.

(** The items of a sequence while it is read. *)
Inductive item : Type :=
| Literal (c : char)
| Category (p : char -> bool)
| At (r : regex)
| Group (r : regex)
| Repeat (r : regex).

Definition pattern_of (i : item) : regex :=
  match i with
  | Literal c => Chr c
  | Category p => Cls p
  | At r | Group r | Repeat r => r
  end.

(** A group that is being read: its finished alternatives and the items of
    the alternative at hand, both last first. *)
Record frame : Type := {
  finished : list regex;
  items : list item
}.

Definition empty : frame := {| finished := []; items := [] |}.

Definition push (i : item) (f : frame) : frame :=
  {| finished := finished f; items := i :: items f |}.

Definition sequence (f : frame) : regex := seq (map pattern_of (rev (items f))).

(** At [|]. *)
Definition next_alternative (f : frame) : frame :=
  {| finished := sequence f :: finished f; items := [] |}.

(** At the end of the group. *)
Definition close (f : frame) : regex := alts (rev (sequence f :: finished f)).

(** The item after a backslash: a category, a position, a control
    character, or the character itself; for an ASCII letter without a
    meaning, [re.error] (bad escape). *)
Definition escaped (c : char) : outcome item :=
  if c =? 98 then Returns (At Bnd)
  else if c =? 65 then Returns (At Bos)
  else if c =? 100 then Returns (Category isdecimal)
  else if c =? 115 then Returns (Category isspace)
  else if c =? 119 then Returns (Category isword)
  else if c =? 68 then Returns (Category (fun x => negb (isdecimal x)))
  else if c =? 83 then Returns (Category (fun x => negb (isspace x)))
  else if c =? 87 then Returns (Category (fun x => negb (isword x)))
  else if c =? 97 then Returns (Literal 7)
  else if c =? 102 then Returns (Literal 12)
  else if c =? 110 then Returns (Literal 10)
  else if c =? 114 then Returns (Literal 13)
  else if c =? 116 then Returns (Literal 9)
  else if c =? 118 then Returns (Literal 11)
  else if (c =? 66) || (c =? 90) || (c =? 120) || (c =? 117) || (c =? 85)
          || (c =? 78) || in_range 48 57 c
  then Beyond
  else if in_range 65 90 c || in_range 97 122 c then Raises re_error
  else Returns (Literal c).

(** [?], [*] or [+] after an item: [least] is the least count and [once]
    says that the most is one.  With nothing before it, or a position,
    [re.error] (nothing to repeat); [*] after a repetition, [re.error]
    (multiple repeat). *)
Definition repeated (fl : flags) (q : char) (last : option item)
  : outcome item :=
  let once := q =? 63 in
  let least := if q =? 43 then 1%nat else 0%nat in
  match last with
  | None | Some (At _) => Raises re_error
  | Some (Repeat _) => if q =? 42 then Raises re_error else Beyond
  | Some (Literal c) =>
      if once then Returns (Repeat (Opt (Chr c)))
      else Returns (Repeat (Rep least (if IGNORECASE fl then ignorecase_eqb c
                                       else N.eqb c)))
  | Some (Category p) =>
      if once then Returns (Repeat (Opt (Cls p)))
      else Returns (Repeat (Rep least p))
  | Some (Group r) => if once then Returns (Repeat (Opt r)) else Beyond
  end.

(** The parser of [re]: one pass over the text of the pattern, with the
    group at hand in [f], the groups around it in [outer], and the count
    of capturing groups in [groups]. *)
Fixpoint parse (fl : flags) (s : str) (f : frame) (outer : list frame)
  (groups : nat) : outcome (regex * nat) :=
  match s with
  | [] =>
      match outer with
      | [] => Returns (close f, groups)
      | _ :: _ => Raises re_error
      end
  | c :: s' =>
      if c =? 92 then
        match s' with
        | [] => Raises re_error
        | e :: s'' =>
            i <~ escaped e ;; parse fl s'' (push i f) outer groups
        end
      else if c =? 124 then parse fl s' (next_alternative f) outer groups
      else if c =? 40 then
        match s' with
        | q :: s1 =>
            if q =? 63 then
              match s1 with
              | k :: s2 =>
                  if k =? 58 then parse fl s2 empty (f :: outer) groups
                  else Beyond
              | [] => Raises re_error
              end
            else parse fl s' empty (f :: outer) (S groups)
        | [] => parse fl s' empty (f :: outer) (S groups)
        end
      else if c =? 41 then
        match outer with
        | [] => Raises re_error
        | parent :: outer' =>
            parse fl s' (push (Group (close f)) parent) outer' groups
        end
      else if (c =? 63) || (c =? 42) || (c =? 43) then
        i <~ repeated fl c (hd_error (items f)) ;;
        parse fl s' {| finished := finished f; items := i :: tl (items f) |}
          outer groups
      else if c =? 46 then
        parse fl s'
          (push (Category (if DOTALL fl then any_char
                           else fun x => negb (x =? 10))) f)
          outer groups
      else if c =? 94 then parse fl s' (push (At Bos) f) outer groups
      else if (c =? 36) || (c =? 91) || (c =? 123) then Beyond
      else parse fl s' (push (Literal c) f) outer groups
  end.

(** [re.compile(pattern, flags)]: the pattern and the number of its
    capturing groups. *)
Definition compile (fl : flags) (pattern : str) : outcome (regex * nat) :=
  parse fl pattern empty [] 0.

(** [re.search(pattern, string, flags)] as a truth value. *)
Definition search (fl : flags) (pattern string : str) : outcome bool :=
  compiled <~ compile fl pattern ;;
  Returns (search (IGNORECASE fl) (fst compiled) string).

(** [re.findall(pattern, string, flags)] for a pattern without capturing
    groups; with such groups it lists the groups. *)
Definition findall (fl : flags) (pattern string : str) : outcome (list str) :=
  compiled <~ compile fl pattern ;;
  match snd compiled with
  | O => Returns (findall (IGNORECASE fl) (fst compiled) string)
  | S _ => Beyond
  end.

End Compile.

End re.

(** The analysis with the calls that may raise.  The functions carry the
    names of [logic.py]; those of the same name outside the module are
    their values when every call returns. *)
Module runtime.

Section Calls.
Context {U : Unicode}.

Definition _has_constraints (text : str) : outcome bool :=
  found <~ re.search re.no_flags (txt "\b\d+(?:\.\d+)?\b") text ;;
  if found then Returns true
  else Returns (search true CONSTRAINT_PATTERN text).

(** The loop of [_find_terms]. *)
Fixpoint find_loop (lowered : str) (terms found : list str)
  : outcome (list str) :=
  match terms with
  | [] => Returns found
  | term :: terms' =>
      let pattern := re.escape term in
      hit <~ re.search re.no_flags pattern lowered ;;
      if hit
      then if existsb (fun existing => contains term existing) found
           then find_loop lowered terms' found
           else find_loop lowered terms' (found ++ [term])
      else find_loop lowered terms' found
  end.

Definition _find_terms (text : str) (term_list : list str)
  : outcome (list str) :=
  let lowered := lower text in
  found <~ find_loop lowered (longest_first (set_elements term_list)) [] ;;
  Returns (sorted found).

Definition _count_dangling_pronouns (text : str) : outcome Z :=
  found <~ re.findall {| re.IGNORECASE := true; re.DOTALL := false |}
             (txt "\b(?:it|this|that|they)\s+(?:is|are|was|were|should|must|can|will|need|needs)\b")
             text ;;
  Returns (Z.of_nat (length found)).

Definition analyze_prompt (text : str) : outcome Analysis :=
  let source := or_empty text in
  constrained <~ _has_constraints source ;;
  let checks :=
    {| has_role := search true ROLE_PATTERN source;
       has_task := search true TASK_PATTERN source;
       has_inputs := search true INPUT_PATTERN source;
       has_constraints := constrained;
       has_format := search true FORMAT_PATTERN source;
       has_examples := search true EXAMPLE_PATTERN source;
       has_steps := search true STEPS_PATTERN source;
       has_success_criteria := search true SUCCESS_PATTERN source |} in
  found <~ _find_terms source AMBIGUOUS_TERMS ;;
  let ambiguous_terms := _normalize_terms found in
  vague_quantifiers <~ _find_terms source VAGUE_QUANTIFIERS ;;
  dangling_pronouns <~ _count_dangling_pronouns source ;;
  let score :=
    _calculate_score checks ambiguous_terms vague_quantifiers dangling_pronouns in
  let notes :=
    _build_notes checks ambiguous_terms vague_quantifiers dangling_pronouns in
  Returns {| checks := checks;
             flags := {| ambiguous_terms := ambiguous_terms;
                         vague_quantifiers := vague_quantifiers;
                         dangling_pronouns := dangling_pronouns |};
             score := score;
             notes := notes |}.

End Calls.

End runtime.

(** * The vocabulary of the properties *)

(** ** Scores and notes *)

Definition b2z (b : bool) : Z := if b then 1%Z else 0%Z.

(** The number of checks that hold, counted field by field. *)
Definition true_checks (c : Checks) : Z :=
  (b2z (has_role c) + b2z (has_task c) + b2z (has_inputs c)
   + b2z (has_constraints c) + b2z (has_format c) + b2z (has_examples c)
   + b2z (has_steps c) + b2z (has_success_criteria c))%Z.

Definition clamp (lo hi x : Z) : Z := Z.max lo (Z.min hi x).

Definition len (l : list str) : Z := Z.of_nat (length l).

Definition no_checks : Checks :=
  {| has_role := false; has_task := false; has_inputs := false;
     has_constraints := false; has_format := false; has_examples := false;
     has_steps := false; has_success_criteria := false |}.

(** The notes of one call before the fallback is considered. *)
Definition other_notes (c : Checks) (amb vague : list str) (d : Z) : list str :=
  flat_map
    (fun km => if negb (get (items c) (fst km) false) then [snd km] else [])
    missing_messages
  ++ match amb with
     | [] => []
     | _ :: _ => [txt "Clarify or replace ambiguous terms: "
                  ++ join (txt ", ") (sorted amb) ++ txt "."]
     end
  ++ match vague with
     | [] => []
     | _ :: _ => [txt "Quantify vague language (specify counts, ranges, or timeframes) for: "
                  ++ join (txt ", ") (sorted vague) ++ txt "."]
     end
  ++ (if (d =? 0)%Z then []
      else [txt "Resolve dangling pronouns (it/this/that/they) by naming the referent."]).

(** ** Positions and runs *)

Definition last_char (prev : option char) (t : str) : option char :=
  fold_left (fun _ c => Some c) t prev.

(** The leading run of characters of a class, and what follows it. *)
Fixpoint run_of (p : char -> bool) (s : str) : str :=
  match s with
  | c :: s' => if p c then c :: run_of p s' else []
  | [] => []
  end.

Fixpoint after_run (p : char -> bool) (s : str) : str :=
  match s with
  | c :: s' => if p c then after_run p s' else s
  | [] => []
  end.

(** The relation of a comparison that answers with a boolean. *)
Definition holds {A : Type} (le : A -> A -> bool) (x y : A) : Prop :=
  le x y = true.

(** [x] stands before [y] in [longest_first]: it is at least as long. *)
Definition longer (x y : str) : Prop := Nat.leb (length y) (length x) = true.

Section Vocabulary.
Context {U : Unicode}.

(** The character before the end of [pre] is a word character. *)
Definition word_before (pre : str) : bool :=
  match last_char None pre with
  | Some c => isword c
  | None => false
  end.

(** The first character of [post] is a word character. *)
Definition word_after (post : str) : bool :=
  match post with
  | c :: _ => isword c
  | [] => false
  end.

(** No whitespace stands right after a newline; [after_newline] says that
    the character before the text is a newline. *)
Fixpoint tidy (after_newline : bool) (s : str) : bool :=
  match s with
  | [] => true
  | c :: s' => negb (after_newline && isspace c) && tidy (c =? 10) s'
  end.

(** The texts found after the loop of [_find_terms] has walked [walk]. *)
Definition found_in (lowered : str) (walk : list str) : list str :=
  fold_left (find_step lowered) walk [].

(** No other term of the walk that occurs in the text contains [term]. *)
Definition maximal (lowered : str) (walk : list str) (term : str) : Prop :=
  forall other : str,
    In other walk -> contains other lowered = true ->
    contains term other = true -> other = term.

End Vocabulary.

(** ** The inputs of the examples *)

(** A prompt in which role, inputs, constraints, format and steps hold,
    "help" and "improve" are ambiguous and "some" is vague. *)
Definition coach_prompt : str :=
  txt "You are a coach. Given the budget, return a table of steps. help improve some".

(** The first preset of the application with a launch for its marketing
    plan: "help me with" is its only phrase of the vocabulary. *)
Definition help_prompt : str := txt "Help me with a launch for a small startup".

(** The third preset of the application, whose "q3" holds a numeral that
    no table of characters makes a constraint. *)
Definition q3_prompt : str :=
  txt "please look at the q3 numbers and tell me what stands out".

(** A source of 200 spaces. *)
Definition blank_source : str := repeat 32 200.

(** A source of 200 letters. *)
Definition long_source : str := repeat 97 200.

(** ** The reported terms *)

(** The name under which [_normalize_terms] lists a term. *)
Definition renamed (term : str) : str :=
  if str_eqb term (txt "help me with") then txt "help" else term.

(** The terms that the analysis can report as ambiguous: the vocabulary
    without its longest "help" phrase. *)
Definition reported_vocabulary : list str :=
  filter (fun term => negb (str_eqb term (txt "help me with"))) AMBIGUOUS_TERMS.

(** One for a list that is not empty, as a condition of Python reads it. *)
Definition some_of (l : list str) : Z :=
  match l with
  | [] => 0%Z
  | _ :: _ => 1%Z
  end.

Definition all_checks : Checks :=
  {| has_role := true; has_task := true; has_inputs := true;
     has_constraints := true; has_format := true; has_examples := true;
     has_steps := true; has_success_criteria := true |}.

(** ** The shape of a cleaned text *)

(** No space stands right after a space; [after_space] says that the
    character before the text is a space. *)
Fixpoint single_spaced (after_space : bool) (s : str) : bool :=
  match s with
  | [] => true
  | c :: s' => negb (after_space && (c =? 32)) && single_spaced (c =? 32) s'
  end.

(** ** Counting *)

(** How often a text stands in a list. *)
Definition occurrences (word : str) (l : list str) : nat :=
  length (filter (str_eqb word) l).

(** The count that a counter holds for a text, 0 when it holds none. *)
Fixpoint count_of (word : str) (counts : list (str * nat)) : nat :=
  match counts with
  | [] => 0%nat
  | (k, n) :: rest => if str_eqb k word then n else count_of word rest
  end.

(** [a] stands before [b] among the keywords: it is at least as frequent
    among the tokens. *)
Definition as_frequent (tokens : list str) (a b : str) : Prop :=
  (occurrences b tokens <= occurrences a tokens)%nat.

(** ** The phrases of the detectors *)

(** The alternatives of [CONSTRAINT_PATTERN], [ROLE_PATTERN] and
    [TASK_PATTERN] as texts. *)
Definition CONSTRAINT_WORDS : list str := map txt
  [ "constraint"; "assume"; "exclude"; "limit"; "deadline"; "budget"; "must";
    "exactly"; "at least"; "no more than" ]%string.

Definition ROLE_PHRASES : list str := map txt [ "you are"; "act as" ]%string.

Definition TASK_VERBS : list str := map txt
  [ "write"; "draft"; "plan"; "create"; "design"; "develop"; "compare";
    "summarize"; "analyze"; "build"; "outline"; "generate"; "evaluate";
    "produce"; "compose"; "audit"; "assess" ]%string.

(** A character that a pattern can hold for itself and its capital: an
    ASCII character that is not a capital letter. *)
Definition plain (p : char) : bool := is_ascii p && (ascii_lower p =? p).

Definition letter (p : char) : bool := in_range 97 122 p.

(** A phrase that begins and ends with a small letter. *)
Definition lettered (phrase : str) : bool :=
  match phrase, last_char None phrase with
  | p :: _, Some q => letter p && letter q
  | _, _ => false
  end.

(** ** Decoding *)

(** A continuation byte, [10xxxxxx]. *)
Definition continuation (b : N) : bool := in_range 128 191 b.

(** [b.decode("utf-8")] in its strict form: a sequence that is too long
    for its character, a surrogate or a code point beyond U+10FFFF is
    refused. *)
Fixpoint utf8_decode (b : bytes) : option str :=
  match b with
  | [] => Some []
  | b0 :: r0 =>
      if b0 <? 128 then option_map (cons b0) (utf8_decode r0)
      else if b0 <? 192 then None
      else if b0 <? 224 then
        match r0 with
        | b1 :: r1 =>
            let c := (b0 - 192) * 64 + (b1 - 128) in
            if continuation b1 && (128 <=? c)
            then option_map (cons c) (utf8_decode r1)
            else None
        | _ => None
        end
      else if b0 <? 240 then
        match r0 with
        | b1 :: b2 :: r2 =>
            let c := ((b0 - 224) * 64 + (b1 - 128)) * 64 + (b2 - 128) in
            if continuation b1 && continuation b2 && (2048 <=? c)
               && negb (in_range 55296 57343 c)
            then option_map (cons c) (utf8_decode r2)
            else None
        | _ => None
        end
      else if b0 <? 248 then
        match r0 with
        | b1 :: b2 :: b3 :: r3 =>
            let c := (((b0 - 240) * 64 + (b1 - 128)) * 64 + (b2 - 128)) * 64
                     + (b3 - 128) in
            if continuation b1 && continuation b2 && continuation b3
               && (65536 <=? c) && (c <? 1114112)
            then option_map (cons c) (utf8_decode r3)
            else None
        | _ => None
        end
      else None
  end.

(** ** Letter case *)

(** A position and a piece with their ASCII capitals made small. *)
Definition low_cursor (st : cursor) : cursor :=
  (option_map ascii_lower (fst st), map ascii_lower (snd st)).

Definition low_piece (p : piece) : piece :=
  match p with
  | Gap c => Gap (ascii_lower c)
  | Hit x => Hit (map ascii_lower x)
  end.

(** A pattern that cannot tell a capital from its small letter: its
    classes do not, and its characters are ASCII when the case is ignored
    and no letters when it is not. *)
Fixpoint case_blind (ic : bool) (r : regex) : Prop :=
  match r with
  | Eps | Bnd | Bos => True
  | Chr c =>
      if ic then is_ascii c = true
      else in_range 65 90 c || in_range 97 122 c = false
  | Cls p | Rep _ p => forall x, p (ascii_lower x) = p x
  | Cat a b | Alt a b => case_blind ic a /\ case_blind ic b
  | Opt a => case_blind ic a
  end.

(** ** The head of a rewritten prompt *)

(** The text with which the first section opens, up to the verb of the
    role line. *)
Definition heading : str := txt "Role:" ++ nl ++ txt "You are".

(** ** Tactics *)

(** Discharges [contains term lowered = false] for a listed term that is
    neither of the two excepted ones from a hypothesis about all such
    terms. *)
Ltac absent :=
  match goal with
  | H : forall term : str, In term _ -> _ |- _ =>
      apply H;
      [ vm_compute; repeat (first [left; reflexivity | right])
      | vm_compute; discriminate
      | vm_compute; discriminate ]
  end.

(** Rewrites with an equation [H] about the matcher wherever the goal
    calls it on a convertible position. *)
Ltac rewrite_m H :=
  match type of H with
  | _ = ?rhs =>
      match goal with
      | |- context [m ?ic ?r ?st] =>
          let E := fresh "E" in
          assert (E : m ic r st = rhs) by exact H;
          rewrite E; clear E
      end
  end.

(** * Properties *)

(** ** The score *)

Lemma count_values (c : Checks) :
  Z.of_nat (length (filter (fun value => value) (values c))) = true_checks c.
Proof.
  destruct c as [[] [] [] [] [] [] [] []]; reflexivity.
Qed.

Lemma true_checks_range (c : Checks) : (0 <= true_checks c <= 8)%Z.
Proof.
  unfold true_checks, b2z.
  destruct (has_role c), (has_task c), (has_inputs c), (has_constraints c),
    (has_format c), (has_examples c), (has_steps c), (has_success_criteria c);
    lia.
Qed.

Lemma calculate_score_eq (c : Checks) (amb vague : list str) (d : Z) :
  _calculate_score c amb vague d
  = clamp 0 100 (10 * true_checks c - (5 * len amb + 2 * len vague + 3 * d)).
Proof.
  unfold _calculate_score, clamp, len.
  rewrite count_values.
  f_equal. f_equal. lia.
Qed.

Section ScoreProperties.
Context {U : Unicode}.

Lemma dangling_nonneg (text : str) : (0 <= _count_dangling_pronouns text)%Z.
Proof. unfold _count_dangling_pronouns. lia. Qed.

Lemma analyze_score (text : str) :
  score (analyze_prompt text)
  = _calculate_score (checks (analyze_prompt text))
      (ambiguous_terms (flags (analyze_prompt text)))
      (vague_quantifiers (flags (analyze_prompt text)))
      (dangling_pronouns (flags (analyze_prompt text))).
Proof.
  unfold analyze_prompt.
  cbv beta iota zeta delta
    [score checks flags ambiguous_terms vague_quantifiers dangling_pronouns].
  reflexivity.
Qed.

Lemma analyze_notes (text : str) :
  notes (analyze_prompt text)
  = _build_notes (checks (analyze_prompt text))
      (ambiguous_terms (flags (analyze_prompt text)))
      (vague_quantifiers (flags (analyze_prompt text)))
      (dangling_pronouns (flags (analyze_prompt text))).
Proof.
  unfold analyze_prompt.
  cbv beta iota zeta delta
    [notes checks flags ambiguous_terms vague_quantifiers dangling_pronouns].
  reflexivity.
Qed.

Lemma analyze_dangling (text : str) :
  dangling_pronouns (flags (analyze_prompt text))
  = _count_dangling_pronouns (or_empty text).
Proof.
  unfold analyze_prompt.
  cbv beta iota zeta delta [flags dangling_pronouns].
  reflexivity.
Qed.

Lemma build_notes_nonempty (c : Checks) (amb vague : list str) (d : Z) :
  _build_notes c amb vague d <> [].
Proof.
  unfold _build_notes.
  match goal with |- (match ?n with [] => _ | _ :: _ => _ end) <> [] =>
    destruct n end; discriminate.
Qed.

(** C5.  The score of every text is ten points per true check, less five
    per ambiguous term, two per vague quantifier and three per dangling
    pronoun, clamped to 0..100; with five true checks, two ambiguous terms,
    one vague quantifier and no dangling pronoun it is 38. *)
Theorem analyze_score_formula (text : str) :
  let a := analyze_prompt text in
  score a
  = clamp 0 100
      (10 * true_checks (checks a)
       - (5 * len (ambiguous_terms (flags a))
          + 2 * len (vague_quantifiers (flags a))
          + 3 * dangling_pronouns (flags a)))
  /\ (true_checks (checks a) = 5%Z ->
      len (ambiguous_terms (flags a)) = 2%Z ->
      len (vague_quantifiers (flags a)) = 1%Z ->
      dangling_pronouns (flags a) = 0%Z ->
      score a = 38%Z).
Proof.
  intros a.
  assert (E : score a
              = clamp 0 100
                  (10 * true_checks (checks a)
                   - (5 * len (ambiguous_terms (flags a))
                      + 2 * len (vague_quantifiers (flags a))
                      + 3 * dangling_pronouns (flags a)))).
  { unfold a. rewrite analyze_score. apply calculate_score_eq. }
  split; [exact E |].
  intros Hc Ha Hv Hd.
  rewrite E, Hc, Ha, Hv, Hd. reflexivity.
Qed.

(** C10.  The score of every text is at most 80: eight checks at ten
    points each, and a penalty that is never negative. *)
Theorem analyze_score_le_80 (text : str) : (score (analyze_prompt text) <= 80)%Z.
Proof.
  rewrite analyze_score, calculate_score_eq.
  pose proof (true_checks_range (checks (analyze_prompt text))) as Hc.
  pose proof (dangling_nonneg (or_empty text)) as Hd.
  rewrite <- analyze_dangling in Hd.
  unfold clamp, len. lia.
Qed.

(** *** The calls of the analysis that could raise *)

Lemma parse_cons (fl : re.flags) (c : char) (s' : str) (f : re.frame)
  (outer : list re.frame) (groups : nat) :
  re.parse fl (c :: s') f outer groups
  = if c =? 92 then
      match s' with
      | [] => Raises re_error
      | e :: s'' =>
          i <~ re.escaped e ;; re.parse fl s'' (re.push i f) outer groups
      end
    else if c =? 124 then re.parse fl s' (re.next_alternative f) outer groups
    else if c =? 40 then
      match s' with
      | q :: s1 =>
          if q =? 63 then
            match s1 with
            | k :: s2 =>
                if k =? 58 then re.parse fl s2 re.empty (f :: outer) groups
                else Beyond
            | [] => Raises re_error
            end
          else re.parse fl s' re.empty (f :: outer) (S groups)
      | [] => re.parse fl s' re.empty (f :: outer) (S groups)
      end
    else if c =? 41 then
      match outer with
      | [] => Raises re_error
      | parent :: outer' =>
          re.parse fl s' (re.push (re.Group (re.close f)) parent) outer' groups
      end
    else if (c =? 63) || (c =? 42) || (c =? 43) then
      i <~ re.repeated fl c (hd_error (re.items f)) ;;
      re.parse fl s'
        {| re.finished := re.finished f; re.items := i :: tl (re.items f) |}
        outer groups
    else if c =? 46 then
      re.parse fl s'
        (re.push (re.Category (if re.DOTALL fl then any_char
                               else fun x => negb (x =? 10))) f)
        outer groups
    else if c =? 94 then re.parse fl s' (re.push (re.At Bos) f) outer groups
    else if (c =? 36) || (c =? 91) || (c =? 123) then Beyond
    else re.parse fl s' (re.push (re.Literal c) f) outer groups.
Proof. reflexivity. Qed.

(** After a backslash, a character that [re.escape] escapes is itself. *)
Lemma escaped_special (c : char) :
  re.is_special c = true -> re.escaped c = Returns (re.Literal c).
Proof.
  unfold re.is_special, re.special. cbn [existsb]. intros H.
  repeat (apply orb_true_iff in H; destruct H as [H | H];
          [apply N.eqb_eq in H; subst c; reflexivity |]).
  discriminate H.
Qed.

(** A character that [re.escape] leaves alone has no meaning in a
    pattern. *)
Lemma parse_plain (fl : re.flags) (c : char) (s' : str) (f : re.frame)
  (outer : list re.frame) (groups : nat) :
  re.is_special c = false ->
  re.parse fl (c :: s') f outer groups
  = re.parse fl s' (re.push (re.Literal c) f) outer groups.
Proof.
  unfold re.is_special, re.special. cbn [existsb]. intros H.
  repeat (apply orb_false_iff in H; destruct H as [? H]).
  rewrite parse_cons.
  repeat match goal with
         | E : (c =? _) = false |- _ => rewrite E; clear E
         end.
  reflexivity.
Qed.

(** The parser reads an escaped text as the characters of the text. *)
Lemma parse_escape (fl : re.flags) (term : str) :
  forall (rest : str) (f : re.frame) (outer : list re.frame) (groups : nat),
  re.parse fl (re.escape term ++ rest) f outer groups
  = re.parse fl rest
      (fold_left (fun f c => re.push (re.Literal c) f) term f) outer groups.
Proof.
  induction term as [| c term IH]; intros rest f outer groups;
    [reflexivity |].
  unfold re.escape. cbn [flat_map fold_left]. fold (re.escape term).
  rewrite <- app_assoc.
  destruct (re.is_special c) eqn:E.
  - cbn [app]. rewrite parse_cons. cbn [N.eqb Pos.eqb].
    rewrite (escaped_special c E). cbn [and_then]. apply IH.
  - cbn [app]. rewrite (parse_plain fl c _ f outer groups E). apply IH.
Qed.

Lemma items_of_literals (term : str) : forall f : re.frame,
  re.items (fold_left (fun f c => re.push (re.Literal c) f) term f)
  = rev (map re.Literal term) ++ re.items f
  /\ re.finished (fold_left (fun f c => re.push (re.Literal c) f) term f)
     = re.finished f.
Proof.
  induction term as [| c term IH]; intros f; [split; reflexivity |].
  cbn [fold_left map rev]. destruct (IH (re.push (re.Literal c) f)) as [-> ->].
  cbn [re.push re.items re.finished]. rewrite <- app_assoc. split; reflexivity.
Qed.

Lemma seq_of_characters (term : str) :
  seq (map re.pattern_of (map re.Literal term)) = lit term.
Proof.
  unfold seq, lit. induction term as [| c term IH]; [reflexivity |].
  cbn [map fold_right re.pattern_of]. rewrite IH. reflexivity.
Qed.

(** What [re.escape] makes of a text always compiles, to the pattern of
    the text itself, without groups. *)
Lemma compile_escape (fl : re.flags) (term : str) :
  re.compile fl (re.escape term) = Returns (lit term, 0%nat).
Proof.
  unfold re.compile.
  rewrite <- (app_nil_r (re.escape term)), parse_escape.
  cbn [re.parse]. unfold re.close, re.sequence.
  destruct (items_of_literals term re.empty) as [-> ->].
  cbn [re.empty re.items re.finished]. rewrite app_nil_r, rev_involutive.
  rewrite seq_of_characters. reflexivity.
Qed.

Lemma search_escape (fl : re.flags) (term text : str) :
  re.search fl (re.escape term) text
  = Returns (search (re.IGNORECASE fl) (lit term) text).
Proof. unfold re.search. rewrite compile_escape. reflexivity. Qed.

Lemma find_loop_returns (lowered : str) (terms : list str) :
  forall found : list str,
  runtime.find_loop lowered terms found
  = Returns (fold_left (find_step lowered) terms found).
Proof.
  induction terms as [| term terms IH]; intros found; [reflexivity |].
  cbn [runtime.find_loop fold_left]. cbv zeta.
  rewrite search_escape. cbn [and_then re.no_flags re.IGNORECASE].
  unfold find_step at 2.
  destruct (search false (lit term) lowered); [| apply IH].
  destruct (existsb (fun existing => contains term existing) found);
    apply IH.
Qed.

Lemma find_terms_returns (text : str) (term_list : list str) :
  runtime._find_terms text term_list = Returns (_find_terms text term_list).
Proof.
  unfold runtime._find_terms, _find_terms, _find_terms_in. cbv zeta.
  rewrite find_loop_returns. reflexivity.
Qed.

Lemma has_constraints_returns (text : str) :
  runtime._has_constraints text = Returns (_has_constraints text).
Proof.
  unfold runtime._has_constraints, _has_constraints, re.search.
  change (re.compile re.no_flags (txt "\b\d+(?:\.\d+)?\b"))
    with (Returns (NUMERAL_PATTERN, 0%nat)).
  cbn [and_then fst re.no_flags re.IGNORECASE].
  destruct (search false NUMERAL_PATTERN text); reflexivity.
Qed.

Lemma count_dangling_returns (text : str) :
  runtime._count_dangling_pronouns text
  = Returns (_count_dangling_pronouns text).
Proof.
  unfold runtime._count_dangling_pronouns, _count_dangling_pronouns,
    re.findall.
  match goal with
  | |- context [re.compile ?fl ?p] =>
      change (re.compile fl p) with (Returns (DANGLING_PATTERN, 0%nat))
  end.
  reflexivity.
Qed.

(** Without [re.escape] a term could make the search raise: one with an
    open parenthesis is no pattern. *)
Lemma search_unescaped_raises (text : str) :
  re.search re.no_flags (txt "help (me") text = Raises re_error
  /\ re.search re.no_flags (re.escape (txt "help (me")) text
     = Returns (search false (lit (txt "help (me")) text).
Proof. split; [reflexivity | apply search_escape]. Qed.

(** Every call of the analysis returns, and the analysis returns what
    [analyze_prompt] is. *)
Lemma analyze_prompt_returns (text : str) :
  runtime.analyze_prompt text = Returns (analyze_prompt text).
Proof.
  unfold runtime.analyze_prompt. cbv zeta.
  rewrite has_constraints_returns. cbn [and_then].
  rewrite !find_terms_returns. cbn [and_then].
  rewrite count_dangling_returns. cbn [and_then].
  unfold analyze_prompt. reflexivity.
Qed.

(** C7.  The analysis returns an analysis for every text, the empty one
    included, and never raises.  What could raise in it is the compiling
    of a pattern from its text: of the numeral in [_has_constraints], of
    the escaped term in each turn of [_find_terms], and of the pronoun
    pattern in [_count_dangling_pronouns]; each of these compiles. *)
Theorem analyze_total (text : str) :
  exists a : Analysis, runtime.analyze_prompt text = Returns a.
Proof.
  exists (analyze_prompt text). apply analyze_prompt_returns.
Qed.

End ScoreProperties.

Lemma analyze_score_formula_witness :
  score (analyze_prompt coach_prompt) = 38%Z.
Proof.
  apply (proj2 (analyze_score_formula coach_prompt)); vm_compute; reflexivity.
Defined.

(** ** The notes *)

Lemma build_notes_other (c : Checks) (amb vague : list str) (d : Z) :
  _build_notes c amb vague d
  = match other_notes c amb vague d with
    | [] => [fallback_note]
    | _ :: _ => other_notes c amb vague d
    end.
Proof.
  unfold _build_notes, other_notes.
  destruct amb, vague, (d =? 0)%Z;
    rewrite ?app_nil_r, <- ?app_assoc; reflexivity.
Qed.

(** None of the other notes is the fallback note: they differ from it
    within their first four characters. *)
Lemma other_notes_not_fallback (c : Checks) (amb vague : list str) (d : Z) :
  ~ In fallback_note (other_notes c amb vague d).
Proof.
  unfold other_notes. rewrite !in_app_iff.
  intros [H | [H | [H | H]]].
  - apply in_flat_map in H. destruct H as [km [Hkm H]].
    destruct (negb (get (items c) (fst km) false)); [| destruct H].
    destruct H as [H | []].
    vm_compute in Hkm.
    repeat (destruct Hkm as [Hkm | Hkm];
            [subst km; vm_compute in H; discriminate H |]).
    destruct Hkm.
  - destruct amb; [destruct H |].
    destruct H as [H | []]. vm_compute in H. discriminate H.
  - destruct vague; [destruct H |].
    destruct H as [H | []]. vm_compute in H. discriminate H.
  - destruct (d =? 0)%Z; [destruct H |].
    destruct H as [H | []]. vm_compute in H. discriminate H.
Qed.

Lemma fallback_only_alone (c : Checks) (amb vague : list str) (d : Z) :
  In fallback_note (_build_notes c amb vague d) ->
  other_notes c amb vague d = [] /\ _build_notes c amb vague d = [fallback_note].
Proof.
  rewrite build_notes_other.
  pose proof (other_notes_not_fallback c amb vague d) as Hn.
  destruct (other_notes c amb vague d) eqn:E.
  - intros _. split; reflexivity.
  - intros H. contradiction.
Qed.

Section EmptyText.
Context {U : Unicode}.

Lemma analyze_empty :
  analyze_prompt []
  = {| checks := no_checks;
       flags := {| ambiguous_terms := []; vague_quantifiers := [];
                   dangling_pronouns := 0 |};
       score := 0;
       notes := map snd missing_messages |}.
Proof. vm_compute. reflexivity. Qed.

(** C6.  For the empty text every check is false, the score is 0 and the
    notes are the eight missing-check messages in the order of the checks,
    without the fallback note; for every text, the fallback note stands in
    the notes only when no other note was produced. *)
Theorem analyze_empty_text :
  checks (analyze_prompt []) = no_checks
  /\ score (analyze_prompt []) = 0%Z
  /\ notes (analyze_prompt []) = map snd missing_messages
  /\ length (notes (analyze_prompt [])) = 8%nat
  /\ ~ In fallback_note (notes (analyze_prompt []))
  /\ forall text : str,
       In fallback_note (notes (analyze_prompt text)) ->
       notes (analyze_prompt text) = [fallback_note].
Proof.
  split; [| split; [| split; [| split; [| split]]]].
  - rewrite analyze_empty. reflexivity.
  - rewrite analyze_empty. reflexivity.
  - rewrite analyze_empty. reflexivity.
  - rewrite analyze_empty. reflexivity.
  - rewrite analyze_notes. intros H.
    apply fallback_only_alone in H. destruct H as [_ H].
    rewrite <- analyze_notes, analyze_empty in H.
    vm_compute in H. discriminate H.
  - intros text. rewrite analyze_notes. intros H.
    apply fallback_only_alone in H. apply H.
Qed.

End EmptyText.

(** ** The rewriter: errors and the role of the analysis *)

Lemma build_focus_phrase_returns (keywords : list str) :
  exists phrase, _build_focus_phrase keywords = Return phrase.
Proof.
  unfold _build_focus_phrase.
  destruct keywords as [| k0 [| k1 rest]].
  - eexists. reflexivity.
  - destruct (mem (txt "startup") [k0] && mem (txt "marketing") [k0]);
      eexists; reflexivity.
  - destruct (mem (txt "startup") (k0 :: k1 :: rest)
              && mem (txt "marketing") (k0 :: k1 :: rest));
      eexists; reflexivity.
Qed.

Lemma build_audience_phrase_returns (keywords : list str) :
  exists phrase, _build_audience_phrase keywords = Return phrase.
Proof.
  unfold _build_audience_phrase.
  destruct (mem (txt "startup") keywords); [eexists; reflexivity |].
  destruct (mem (txt "students") keywords); [eexists; reflexivity |].
  destruct (mem (txt "executive") keywords || mem (txt "leadership") keywords);
    [eexists; reflexivity |].
  destruct keywords; eexists; reflexivity.
Qed.

Section RewriterProperties.
Context {U : Unicode}.

Lemma rewrite_prompt_returns (a : Analysis) (text : str) :
  exists focus audience,
    _build_focus_phrase (_extract_keywords (or_empty text) 6) = Return focus
    /\ _build_audience_phrase (_extract_keywords (or_empty text) 6) = Return audience
    /\ rewrite_prompt (Some a) text
       = Return (_replace_ambiguous_terms
                   (strip (join (nl ++ nl)
                             (sections_of (_extract_keywords (or_empty text) 6)
                                focus audience (or_empty text))))).
Proof.
  destruct (build_focus_phrase_returns (_extract_keywords (or_empty text) 6))
    as [focus Hf].
  destruct (build_audience_phrase_returns (_extract_keywords (or_empty text) 6))
    as [audience Ha].
  exists focus, audience.
  split; [exact Hf |]. split; [exact Ha |].
  unfold rewrite_prompt. rewrite Hf, Ha. reflexivity.
Qed.

(** C8.  Without an analysis [rewrite_prompt] raises [ValueError], the
    invalid-argument error of the module; with any analysis it returns a
    text and raises nothing, no [IndexError] from the keyword list
    either. *)
Theorem rewrite_requires_analysis (text : str) :
  rewrite_prompt None text
  = Raise (ValueError (txt "analysis data is required for rewrite"))
  /\ forall a : Analysis, exists out : str,
       rewrite_prompt (Some a) text = Return out.
Proof.
  split; [reflexivity |].
  intros a.
  destruct (rewrite_prompt_returns a text) as [focus [audience [_ [_ H]]]].
  eexists. exact H.
Qed.

(** C9.  The rewrite depends on the text alone: any two analyses give the
    same returned text, and so do two calls with the same arguments. *)
Theorem rewrite_ignores_analysis (a1 a2 : Analysis) (text : str) :
  exists out : str,
    rewrite_prompt (Some a1) text = Return out
    /\ rewrite_prompt (Some a2) text = Return out.
Proof.
  destruct (rewrite_prompt_returns a1 text) as [focus [audience [Hf [Ha H1]]]].
  destruct (rewrite_prompt_returns a2 text) as [focus' [audience' [Hf' [Ha' H2]]]].
  assert (focus' = focus) by congruence.
  assert (audience' = audience) by congruence.
  subst. eexists. split; [exact H1 | exact H2].
Qed.

End RewriterProperties.

(** ** Facts about the matcher *)

Section MatcherFacts.
Context {U : Unicode}.

(** A literal pattern matches at a position exactly when the text from
    there on starts with it. *)
Lemma m_lit (t : str) : forall (prev : option char) (s : str),
  m false (lit t) (prev, s)
  = if starts_with t s then [(last_char prev t, skipn (length t) s)] else [].
Proof.
  induction t as [| c t IH]; intros prev s.
  - reflexivity.
  - change (lit (c :: t)) with (Cat (Chr c) (lit t)).
    cbn [m]. unfold step_if. cbn [snd fst].
    destruct s as [| y s]; [reflexivity |].
    cbn [starts_with].
    destruct (c =? y) eqn:E; cbn [flat_map andb].
    + rewrite app_nil_r, IH. apply N.eqb_eq in E. subst y. reflexivity.
    + reflexivity.
Qed.

(** [re.search(re.escape(t), s)] is Python's [t in s]. *)
Lemma search_lit (t : str) : forall (prev : option char) (s : str),
  search_from false (lit t) prev s = contains t s.
Proof.
  intros prev s. revert prev.
  induction s as [| y s IH]; intros prev.
  - cbn [search_from contains]. rewrite m_lit.
    destruct (starts_with t []); reflexivity.
  - cbn [search_from contains]. rewrite m_lit.
    destruct (starts_with t (y :: s)); [reflexivity |].
    apply IH.
Qed.

Lemma in_not_nil {A : Type} (x : A) (l : list A) : In x l -> l <> [].
Proof. intros H E. rewrite E in H. destruct H. Qed.

Lemma search_from_eq (ic : bool) (r : regex) (prev : option char) (s : str) :
  search_from ic r prev s
  = match m ic r (prev, s) with
    | _ :: _ => true
    | [] =>
        match s with
        | c :: s' => search_from ic r (Some c) s'
        | [] => false
        end
    end.
Proof. destruct s; reflexivity. Qed.

(** A match that starts after a prefix of the text is found by the scan. *)
Lemma search_from_app (ic : bool) (r : regex) (pre s : str) :
  forall prev : option char,
  m ic r (last_char prev pre, s) <> [] ->
  search_from ic r prev (pre ++ s) = true.
Proof.
  induction pre as [| c pre IH]; intros prev H.
  - cbn [app]. cbn [last_char fold_left] in H.
    rewrite search_from_eq.
    destruct (m ic r (prev, s)); [congruence | reflexivity].
  - cbn [app]. rewrite search_from_eq.
    match goal with |- context [m ic r ?st] => destruct (m ic r st) end;
      [| reflexivity].
    apply IH. exact H.
Qed.

(** The greedy repetition reaches the end of every run of the class that
    is long enough. *)
Lemma reps_run (p : char -> bool) (run : str) :
  forall (n : nat) (prev : option char) (s : str),
  forallb p run = true ->
  (n <= length run)%nat ->
  In (last_char prev run, s) (reps p n prev (run ++ s)).
Proof.
  induction run as [| c run IH]; intros n prev s Hp Hn.
  - cbn [length] in Hn. assert (n = 0%nat) by lia. subst n.
    cbn [app last_char fold_left].
    destruct s as [| y s]; cbn [reps]; [left; reflexivity |].
    destruct (p y); [apply in_or_app; right |]; left; reflexivity.
  - cbn [forallb] in Hp. apply andb_true_iff in Hp. destruct Hp as [Hc Hp].
    cbn [app reps]. rewrite Hc.
    apply in_or_app. left.
    apply IH; [exact Hp |]. cbn [length] in Hn. lia.
Qed.

End MatcherFacts.

(** ** The vocabulary scan *)

Section FindTerms.
Context {U : Unicode}.

Lemma or_empty_id (text : str) : or_empty text = text.
Proof. destruct text; reflexivity. Qed.

Lemma analyze_ambiguous (text : str) :
  ambiguous_terms (flags (analyze_prompt text))
  = _normalize_terms (_find_terms text AMBIGUOUS_TERMS).
Proof.
  unfold analyze_prompt.
  cbv beta iota zeta delta [flags ambiguous_terms].
  rewrite or_empty_id. reflexivity.
Qed.

Lemma find_step_eq (lowered : str) (found : list str) (term : str) :
  find_step lowered found term
  = if contains term lowered
    then if existsb (fun existing => contains term existing) found
         then found
         else found ++ [term]
    else found.
Proof. unfold find_step, search. rewrite search_lit. reflexivity. Qed.

Lemma find_step_absent (lowered : str) (found : list str) (term : str) :
  contains term lowered = false -> find_step lowered found term = found.
Proof. intros H. rewrite find_step_eq, H. reflexivity. Qed.

Lemma find_step_new (lowered : str) (found : list str) (term : str) :
  contains term lowered = true ->
  existsb (fun existing => contains term existing) found = false ->
  find_step lowered found term = found ++ [term].
Proof. intros H1 H2. rewrite find_step_eq, H1, H2. reflexivity. Qed.

Lemma find_step_covered (lowered : str) (found : list str) (term : str) :
  existsb (fun existing => contains term existing) found = true ->
  find_step lowered found term = found.
Proof.
  intros H. rewrite find_step_eq, H.
  destruct (contains term lowered); reflexivity.
Qed.

(** C4.  When "help me with" occurs in the lowered text and no term of the
    vocabulary other than it and the "help" inside it does, the analysis
    reports exactly ["help"]: the shorter term is not listed beside the
    longer one, and the longer one is renamed. *)
Theorem help_me_with_reported_as_help (text : str) :
  contains (txt "help me with") (lower text) = true ->
  (forall term : str,
     In term AMBIGUOUS_TERMS ->
     term <> txt "help me with" -> term <> txt "help" ->
     contains term (lower text) = false) ->
  ambiguous_terms (flags (analyze_prompt text)) = [txt "help"].
Proof.
  intros Hlong Hrest.
  rewrite analyze_ambiguous.
  unfold _find_terms, _find_terms_in.
  set (lowered := lower text) in *.
  set (order := longest_first (set_elements AMBIGUOUS_TERMS)).
  vm_compute in order. subst order.
  cbn [fold_left].
  repeat (rewrite (find_step_absent lowered []) by absent).
  rewrite (find_step_new lowered []) by (exact Hlong || reflexivity).
  cbn [app].
  repeat (rewrite (find_step_absent lowered [_]) by absent).
  rewrite (find_step_covered lowered [_]) by (vm_compute; reflexivity).
  repeat (rewrite (find_step_absent lowered [_]) by absent).
  vm_compute. reflexivity.
Qed.

End FindTerms.

Lemma help_me_with_reported_as_help_witness :
  ambiguous_terms (flags (analyze_prompt help_prompt)) = [txt "help"].
Proof.
  apply (help_me_with_reported_as_help help_prompt).
  - vm_compute. reflexivity.
  - intros term Hin H1 H2.
    vm_compute in Hin.
    repeat (destruct Hin as [Hin | Hin];
            [subst term;
             first [ exfalso; apply H1; reflexivity
                   | exfalso; apply H2; reflexivity
                   | vm_compute; reflexivity ] |]).
    destruct Hin.
Defined.

(** ** The constraints detector *)

Section Constraints.
Context {U : Unicode}.

Lemma analyze_has_constraints (text : str) :
  has_constraints (checks (analyze_prompt text)) = _has_constraints text.
Proof.
  unfold analyze_prompt.
  cbv beta iota zeta delta [checks has_constraints].
  rewrite or_empty_id. reflexivity.
Qed.

Lemma isdecimal_isword (c : char) : isdecimal c = true -> isword c = true.
Proof.
  unfold isword, isalnum, isdecimal.
  destruct (is_ascii c); intros H; rewrite H;
    rewrite ?orb_true_r; reflexivity.
Qed.

Lemma last_char_run (p : char -> bool) (run : str) :
  forall prev : option char,
  run <> [] -> forallb p run = true ->
  exists c, last_char prev run = Some c /\ p c = true.
Proof.
  induction run as [| c run IH]; intros prev Hne Hp; [congruence |].
  cbn [forallb] in Hp. apply andb_true_iff in Hp. destruct Hp as [Hc Hp].
  destruct run as [| c' run'].
  - exists c. split; [reflexivity | exact Hc].
  - apply (IH (Some c)); [discriminate | exact Hp].
Qed.

Lemma numeral_found (pre digits post : str) :
  digits <> [] ->
  forallb isdecimal digits = true ->
  word_before pre = false ->
  word_after post = false ->
  search false NUMERAL_PATTERN (pre ++ digits ++ post) = true.
Proof.
  intros Hne Hd Hpre Hpost.
  unfold search. apply search_from_app.
  set (prev := last_char None pre).
  destruct (last_char_run isdecimal digits prev Hne Hd) as [z [Hz Hdz]].
  assert (Hin : In (Some z, post)
                  (m false NUMERAL_PATTERN (prev, digits ++ post))).
  { unfold NUMERAL_PATTERN, seq. cbn [fold_right].
    cbn [m]. apply in_flat_map.
    exists (prev, digits ++ post). split.
    - assert (Hb : at_boundary (prev, digits ++ post) = true).
      { unfold at_boundary. cbn [fst snd].
        fold (word_before pre) in Hpre.
        replace (match prev with Some c => isword c | None => false end)
          with false by (symmetry; exact Hpre).
        destruct digits as [| d digits']; [congruence |].
        cbn [app forallb] in *. apply andb_true_iff in Hd.
        rewrite (isdecimal_isword d) by apply Hd. reflexivity. }
      rewrite Hb. left. reflexivity.
    - apply in_flat_map.
      exists (Some z, post). split.
      + cbn [fst snd]. rewrite <- Hz. apply reps_run; [exact Hd |].
        destruct digits; [congruence | cbn [length]; lia].
      + apply in_flat_map.
        exists (Some z, post). split.
        * apply in_or_app. right. left. reflexivity.
        * apply in_flat_map.
          exists (Some z, post). split; [| left; reflexivity].
          assert (Hb : at_boundary (Some z, post) = true).
          { unfold at_boundary. cbn [fst snd].
            rewrite (isdecimal_isword z Hdz).
            fold (word_after post). rewrite Hpost. reflexivity. }
          rewrite Hb. left. reflexivity. }
  exact (in_not_nil _ _ Hin).
Qed.

(** C2, as the code has it.  A text in which a run of decimal digits
    stands between word boundaries, with no letter, digit or underscore
    right before it or right after it, has [has_constraints] true. *)
Theorem standalone_numeral_has_constraints (pre digits post : str) :
  digits <> [] ->
  forallb isdecimal digits = true ->
  word_before pre = false ->
  word_after post = false ->
  has_constraints (checks (analyze_prompt (pre ++ digits ++ post))) = true.
Proof.
  intros Hne Hd Hpre Hpost.
  rewrite analyze_has_constraints. unfold _has_constraints.
  rewrite (numeral_found pre digits post Hne Hd Hpre Hpost). reflexivity.
Qed.

Lemma q3_prompt_no_constraints :
  existsb isdecimal q3_prompt = true
  /\ has_constraints (checks (analyze_prompt q3_prompt)) = false.
Proof. split; vm_compute; reflexivity. Qed.

End Constraints.

(** C2, as stated, fails: the preset with "q3" contains a numeral and its
    [has_constraints] is false. *)
Lemma numeral_without_constraints :
  ~ (forall (U : Unicode) (text : str),
       existsb isdecimal text = true ->
       has_constraints (checks (analyze_prompt text)) = true).
Proof.
  intros H.
  destruct (q3_prompt_no_constraints (U := plain_symbols)) as [Hd Hc].
  rewrite (H plain_symbols q3_prompt Hd) in Hc. discriminate Hc.
Qed.

Lemma standalone_numeral_has_constraints_witness :
  has_constraints
    (checks (analyze_prompt (txt "limit it to " ++ txt "30" ++ txt " days")))
  = true.
Proof.
  apply (standalone_numeral_has_constraints
           (txt "limit it to ") (txt "30") (txt " days"));
    [discriminate | vm_compute; reflexivity ..].
Defined.

(** ** The recap of the source *)

Section Recap.
Context {U : Unicode}.

Lemma summarize_long (source : str) :
  source <> [] ->
  (140 < length (cleaned_source source))%nat ->
  _summarize_source source = firstn 137 (cleaned_source source) ++ txt "...".
Proof.
  intros Hne Hlong. unfold _summarize_source.
  destruct source as [| c source']; [congruence |].
  cbv zeta.
  destruct (Nat.leb (length (cleaned_source (c :: source'))) 140) eqn:E.
  - apply Nat.leb_le in E. lia.
  - reflexivity.
Qed.

Lemma summarize_short (source : str) :
  source <> [] ->
  (length (cleaned_source source) <= 140)%nat ->
  _summarize_source source = cleaned_source source.
Proof.
  intros Hne Hshort. unfold _summarize_source.
  destruct source as [| c source']; [congruence |].
  cbv zeta.
  destruct (Nat.leb (length (cleaned_source (c :: source'))) 140) eqn:E.
  - reflexivity.
  - apply Nat.leb_gt in E. lia.
Qed.

(** C3, as the code has it.  For a source of 200 characters whose cleaned
    form (stripped, whitespace runs collapsed, ambiguous terms replaced) is
    longer than 140 characters, the recap that [_build_inputs_section]
    puts into the Inputs section is the first 137 characters of the cleaned
    form followed by "...", 140 characters in all. *)
Theorem recap_of_long_source (focus audience source : str) :
  length source = 200%nat ->
  (140 < length (cleaned_source source))%nat ->
  exists recap : str,
    _summarize_source source = recap
    /\ recap = firstn 137 (cleaned_source source) ++ txt "..."
    /\ length recap = 140%nat
    /\ _build_inputs_section focus audience source
       = txt "Inputs (brief):" ++ nl
         ++ join nl [ txt "- Primary focus: " ++ focus ++ txt ".";
                      txt "- Audience/context: " ++ audience ++ txt ".";
                      txt "- Source request recap: " ++ recap ].
Proof.
  intros Hlen Hlong.
  assert (Hne : source <> []).
  { intros E. rewrite E in Hlen. discriminate Hlen. }
  exists (_summarize_source source).
  split; [reflexivity |].
  split; [apply summarize_long; assumption |].
  split; [| reflexivity].
  rewrite (summarize_long source Hne Hlong).
  rewrite length_app, length_firstn.
  change (length (txt "...")) with 3%nat. lia.
Qed.

(** The 200 spaces are stripped to nothing before the length is looked
    at, whatever the tables say about other characters. *)
Lemma blank_source_recap :
  length blank_source = 200%nat /\ _summarize_source blank_source = [].
Proof. split; vm_compute; reflexivity. Qed.

End Recap.

(** C3, as stated, fails: the recap of the 200 spaces is empty. *)
Lemma recap_of_blank_source :
  ~ (forall (U : Unicode) (source : str),
       length source = 200%nat ->
       length (_summarize_source source) = 140%nat).
Proof.
  intros H.
  destruct (blank_source_recap (U := plain_symbols)) as [Hlen Hrecap].
  specialize (H plain_symbols blank_source Hlen).
  rewrite Hrecap in H. discriminate H.
Qed.

Lemma recap_of_long_source_witness :
  exists recap : str,
    _summarize_source long_source = recap
    /\ recap = firstn 137 (cleaned_source long_source) ++ txt "..."
    /\ length recap = 140%nat
    /\ _build_inputs_section (txt "project") (txt "target audience") long_source
       = txt "Inputs (brief):" ++ nl
         ++ join nl [ txt "- Primary focus: " ++ txt "project" ++ txt ".";
                      txt "- Audience/context: " ++ txt "target audience" ++ txt ".";
                      txt "- Source request recap: " ++ recap ].
Proof.
  apply (recap_of_long_source (txt "project") (txt "target audience") long_source).
  - reflexivity.
  - vm_compute. lia.
Defined.

(** ** Blank lines in the rewrite *)

Lemma run_split (p : char -> bool) (s : str) : s = run_of p s ++ after_run p s.
Proof.
  induction s as [| c s IH]; [reflexivity |].
  cbn [run_of after_run]. destruct (p c); [| reflexivity].
  cbn [app]. f_equal. exact IH.
Qed.

Lemma run_length (p : char -> bool) (s : str) :
  length s = (length (run_of p s) + length (after_run p s))%nat.
Proof. rewrite (run_split p s) at 1. apply length_app. Qed.

Lemma reps_long (p : char -> bool) (s : str) :
  forall (n : nat) (prev : option char),
  (n <= length (run_of p s))%nat ->
  exists rest,
    reps p n prev s = (last_char prev (run_of p s), after_run p s) :: rest.
Proof.
  induction s as [| c s IH]; intros n prev Hn.
  - cbn [run_of length] in Hn. assert (n = 0%nat) by lia. subst n.
    exists []. reflexivity.
  - cbn [reps run_of after_run] in *. destruct (p c).
    + cbn [length] in Hn.
      destruct (IH (pred n) (Some c)) as [rest Hrest]; [lia |].
      rewrite Hrest. eexists. reflexivity.
    + cbn [length] in Hn. assert (n = 0%nat) by lia. subst n.
      exists []. reflexivity.
Qed.

Lemma reps_short (p : char -> bool) (s : str) :
  forall (n : nat) (prev : option char),
  (length (run_of p s) < n)%nat -> reps p n prev s = [].
Proof.
  induction s as [| c s IH]; intros n prev Hn.
  - destruct n; [cbn in Hn; lia | reflexivity].
  - cbn [reps run_of] in *. destruct (p c).
    + cbn [length] in Hn. rewrite IH by lia.
      destruct n; [lia | reflexivity].
    + destruct n; [cbn in Hn; lia | reflexivity].
Qed.

Section BlankLines.
Context {U : Unicode}.

Lemma scan_nil (ic : bool) (r : regex) (prev : option char) (skip : nat) :
  m ic r (prev, []) = [] -> scan ic r prev [] skip = [].
Proof. intros H. cbn [scan]. rewrite_m H. destruct skip; reflexivity. Qed.

Lemma scan_skip (ic : bool) (r : regex) (prev : option char) (c : char)
  (s : str) (k : nat) :
  scan ic r prev (c :: s) (S k) = scan ic r (Some c) s k.
Proof. reflexivity. Qed.

Lemma scan_gap (ic : bool) (r : regex) (prev : option char) (c : char)
  (s : str) :
  m ic r (prev, c :: s) = [] ->
  scan ic r prev (c :: s) 0 = Gap c :: scan ic r (Some c) s 0.
Proof. intros H. cbn [scan]. rewrite_m H. reflexivity. Qed.

Lemma scan_hit (ic : bool) (r : regex) (prev prev' : option char) (c : char)
  (s s' : str) (rest : list cursor) (k : nat) :
  m ic r (prev, c :: s) = (prev', s') :: rest ->
  (length (c :: s) - length s' = S k)%nat ->
  scan ic r prev (c :: s) 0
  = Hit (firstn (S k) (c :: s)) :: scan ic r (Some c) s k.
Proof.
  intros H Hk. cbn [scan]. rewrite_m H. cbn [map].
  unfold consumed. cbn [snd]. rewrite Hk. reflexivity.
Qed.

Lemma tidy_weaken (b : bool) (s : str) : tidy b s = true -> tidy false s = true.
Proof.
  destruct s as [| c s]; [reflexivity |].
  cbn [tidy]. intros H. apply andb_true_iff in H. destruct H as [_ H].
  rewrite H. reflexivity.
Qed.

Lemma m_newline_spaces (prev : option char) (s : str) :
  m false NEWLINE_SPACES (prev, s)
  = match s with
    | c :: s' => if 10 =? c then reps isspace 1 (Some c) s' else []
    | [] => []
    end.
Proof.
  unfold NEWLINE_SPACES. cbn [m]. unfold step_if. cbn [fst snd].
  destruct s as [| c s']; [reflexivity |].
  destruct (10 =? c); [| reflexivity].
  cbn [flat_map fst snd]. apply app_nil_r.
Qed.

(** After [re.sub(r"\n\s+", "\n", s)] no newline is followed by
    whitespace. *)
Lemma tidy_scan_newline_spaces (s : str) :
  forall (prev : option char) (skip : nat) (b : bool),
  (skip = 0%nat \/ skip = length (run_of isspace s)) ->
  (b = true -> skip = 0%nat -> run_of isspace s = []) ->
  tidy b (render nl (scan false NEWLINE_SPACES prev s skip)) = true.
Proof.
  induction s as [| c s IH]; intros prev skip b Hskip Hb.
  - rewrite scan_nil by apply m_newline_spaces. reflexivity.
  - destruct skip as [| k].
    + destruct ((10 =? c) && negb (Nat.eqb (length (run_of isspace s)) 0)) eqn:E.
      * apply andb_true_iff in E. destruct E as [Ec Er].
        apply N.eqb_eq in Ec. subst c.
        apply negb_true_iff, Nat.eqb_neq in Er.
        destruct (reps_long isspace s 1 (Some 10)) as [rest Hrest]; [lia |].
        rewrite (scan_hit false NEWLINE_SPACES prev
                   (last_char (Some 10) (run_of isspace s)) 10 s
                   (after_run isspace s) rest (length (run_of isspace s))).
        2:{ rewrite m_newline_spaces. exact Hrest. }
        2:{ cbn [length]. rewrite (run_length isspace s). lia. }
        unfold render. cbn [flat_map]. fold (render nl).
        unfold nl at 1. cbn [app tidy].
        assert (b = false) as ->.
        { destruct b; [| reflexivity].
          specialize (Hb eq_refl eq_refl). discriminate Hb. }
        cbn [andb negb].
        apply IH; [right; reflexivity |].
        intros _ H0. rewrite H0 in Er. cbn in Er. congruence.
      * rewrite scan_gap.
        2:{ rewrite m_newline_spaces.
            destruct (10 =? c) eqn:Ec; [| reflexivity].
            cbn [andb] in E. apply negb_false_iff, Nat.eqb_eq in E.
            apply reps_short. lia. }
        unfold render. cbn [flat_map]. fold (render nl).
        cbn [app tidy].
        apply andb_true_iff. split.
        { destruct b; [| reflexivity].
          specialize (Hb eq_refl eq_refl). cbn [run_of] in Hb.
          destruct (isspace c); [discriminate Hb | reflexivity]. }
        apply IH; [left; reflexivity |].
        intros Hc _. rewrite N.eqb_sym in Hc. rewrite Hc in E.
        cbn [andb] in E. apply negb_false_iff, Nat.eqb_eq in E.
        destruct (run_of isspace s); [reflexivity | discriminate E].
    + rewrite scan_skip.
      destruct Hskip as [Hskip | Hskip]; [discriminate Hskip |].
      cbn [run_of] in Hskip.
      destruct (isspace c); [| discriminate Hskip].
      cbn [length] in Hskip. injection Hskip as Hk.
      apply IH; [right; exact Hk |].
      intros _ H0. subst k.
      destruct (run_of isspace s); [reflexivity | discriminate H0].
Qed.

Lemma tidy_sub_newline_spaces (s : str) :
  tidy false (sub false NEWLINE_SPACES nl s) = true.
Proof.
  unfold sub. apply tidy_scan_newline_spaces; [left; reflexivity |].
  intros H. discriminate H.
Qed.

End BlankLines.

Section BlankLinesEnd.
Context {U : Unicode}.

(** [re.sub(r" {2,}", " ", s)] puts no whitespace after a newline that
    had none. *)
Lemma tidy_scan_spaces (s : str) :
  forall (prev : option char) (skip : nat) (b_in b_out : bool),
  tidy b_in s = true ->
  (b_out = true -> b_in = true) ->
  (skip <> 0%nat -> b_out = false) ->
  tidy b_out (render (txt " ") (scan false SPACES prev s skip)) = true.
Proof.
  induction s as [| c s IH]; intros prev skip b_in b_out Hin Hout Hskip.
  - rewrite scan_nil by reflexivity. reflexivity.
  - cbn [tidy] in Hin. apply andb_true_iff in Hin. destruct Hin as [Hc Hin].
    destruct skip as [| k].
    + destruct (Nat.leb 2 (length (run_of (N.eqb 32) (c :: s)))) eqn:E.
      * apply Nat.leb_le in E.
        destruct (reps_long (N.eqb 32) (c :: s) 2 prev E) as [rest Hrest].
        rewrite (scan_hit false SPACES prev
                   (last_char prev (run_of (N.eqb 32) (c :: s))) c s
                   (after_run (N.eqb 32) (c :: s)) rest
                   (pred (length (run_of (N.eqb 32) (c :: s))))).
        2:{ exact Hrest. }
        2:{ rewrite (run_length (N.eqb 32) (c :: s)). lia. }
        unfold render. cbn [flat_map]. fold (render (txt " ")).
        change (txt " ") with [32] at 1. cbn [app tidy].
        assert (Hc32 : c = 32).
        { cbn [run_of] in E. destruct (32 =? c) eqn:E32.
          - apply N.eqb_eq in E32. congruence.
          - cbn in E. lia. }
        subst c.
        assert (b_out = false) as ->.
        { destruct b_out; [| reflexivity].
          rewrite (Hout eq_refl) in Hc. discriminate Hc. }
        cbn [andb negb].
        apply (IH _ _ false false); [exact Hin | congruence | reflexivity].
      * apply Nat.leb_gt in E.
        rewrite scan_gap by (apply reps_short; exact E).
        unfold render. cbn [flat_map]. fold (render (txt " ")).
        cbn [app tidy].
        apply andb_true_iff. split.
        { destruct b_out; [| reflexivity].
          rewrite (Hout eq_refl) in Hc. exact Hc. }
        apply (IH _ _ (c =? 10) (c =? 10));
          [exact Hin | congruence | congruence].
    + rewrite scan_skip.
      rewrite (Hskip ltac:(discriminate)).
      apply (IH _ _ (c =? 10) false);
        [exact Hin | congruence | reflexivity].
Qed.

Lemma tidy_sub_spaces (s : str) :
  tidy false s = true -> tidy false (sub false SPACES (txt " ") s) = true.
Proof.
  intros H. unfold sub.
  apply (tidy_scan_spaces s None 0 false false);
    [exact H | congruence | congruence].
Qed.

Lemma tidy_prefix (a b : str) :
  forall after_newline : bool,
  tidy after_newline (a ++ b) = true -> tidy after_newline a = true.
Proof.
  induction a as [| c a IH]; intros after_newline H; [reflexivity |].
  cbn [app tidy] in *. apply andb_true_iff in H. destruct H as [Hc H].
  rewrite Hc. cbn [andb]. apply IH. exact H.
Qed.

Lemma tidy_lstrip (s : str) : tidy false s = true -> tidy false (lstrip s) = true.
Proof.
  induction s as [| c s IH]; intros H; [reflexivity |].
  cbn [lstrip]. destruct (isspace c); [| exact H].
  apply IH. cbn [tidy] in H. apply andb_true_iff in H. destruct H as [_ H].
  apply (tidy_weaken _ _ H).
Qed.

Lemma lstrip_suffix (s : str) : exists dropped, s = dropped ++ lstrip s.
Proof.
  induction s as [| c s [dropped IH]].
  - exists []. reflexivity.
  - cbn [lstrip]. destruct (isspace c).
    + exists (c :: dropped). cbn [app]. f_equal. exact IH.
    + exists []. reflexivity.
Qed.

Lemma rstrip_prefix (s : str) : exists dropped, s = rstrip s ++ dropped.
Proof.
  unfold rstrip. destruct (lstrip_suffix (rev s)) as [dropped H].
  exists (rev dropped).
  rewrite <- rev_app_distr, <- H. symmetry. apply rev_involutive.
Qed.

Lemma tidy_strip (s : str) : tidy false s = true -> tidy false (strip s) = true.
Proof.
  intros H. unfold strip.
  apply tidy_lstrip in H.
  destruct (rstrip_prefix (lstrip s)) as [dropped E].
  rewrite E in H. apply (tidy_prefix _ _ _ H).
Qed.

(** A tidy text holds no blank line. *)
Lemma tidy_no_blank_line (s : str) :
  forall after_newline : bool,
  tidy after_newline s = true -> contains (nl ++ nl) s = false.
Proof.
  induction s as [| c s IH]; intros after_newline H; [reflexivity |].
  cbn [tidy] in H. apply andb_true_iff in H. destruct H as [_ H].
  cbn [contains]. rewrite (IH _ H), orb_false_r.
  unfold nl. cbn [app starts_with].
  destruct (10 =? c) eqn:Ec; [| reflexivity].
  destruct s as [| d s]; [reflexivity |].
  destruct (10 =? d) eqn:Ed; [| reflexivity].
  apply N.eqb_eq in Ec, Ed. subst c d.
  cbn in H. discriminate H.
Qed.

End BlankLinesEnd.

Section RewriteLayout.
Context {U : Unicode}.

Lemma replace_ambiguous_terms_tidy (text : str) :
  tidy false (_replace_ambiguous_terms text) = true.
Proof.
  unfold _replace_ambiguous_terms. cbv zeta.
  apply tidy_strip, tidy_sub_spaces, tidy_sub_newline_spaces.
Qed.

(** C1.  The text that [rewrite_prompt] returns never holds a blank line,
    whatever the text and the analysis: the clean-up that follows the
    substitution turns every newline with whitespace before or after it,
    the separators of the join among them, into one newline. *)
Theorem rewrite_has_no_blank_line (a : Analysis) (text : str) :
  exists out : str,
    rewrite_prompt (Some a) text = Return out
    /\ contains (nl ++ nl) out = false.
Proof.
  destruct (rewrite_prompt_returns a text) as [focus [audience [_ [_ H]]]].
  eexists. split; [exact H |].
  apply (tidy_no_blank_line _ false), replace_ambiguous_terms_tidy.
Qed.

End RewriteLayout.

(** The rewrite of the empty text: the eight sections with one newline
    between them, where the join of [rewrite_prompt] put two. *)
Lemma rewrite_of_empty_text (a : Analysis) :
  rewrite_prompt (Some a) []
  = Return (join nl (sections_of [] (txt "project") (txt "target audience") []))
  /\ join (nl ++ nl) (sections_of [] (txt "project") (txt "target audience") [])
     <> join nl (sections_of [] (txt "project") (txt "target audience") []).
Proof.
  split.
  - vm_compute. reflexivity.
  - vm_compute. discriminate.
Qed.

(** ** The order in which the set of terms is walked *)

Lemma str_eqb_eq (a b : str) : str_eqb a b = true <-> a = b.
Proof.
  revert b. induction a as [| x a IH]; intros [| y b]; cbn [str_eqb];
    try (split; intros H; congruence).
  rewrite andb_true_iff, N.eqb_eq, IH.
  split; [intros [-> ->]; reflexivity | intros H; injection H; auto].
Qed.

Lemma starts_with_app (p s : str) :
  starts_with p s = true <-> exists post, s = p ++ post.
Proof.
  revert s. induction p as [| x p IH]; intros s.
  - split; [intros _; exists s; reflexivity | reflexivity].
  - destruct s as [| y s]; cbn [starts_with].
    + split; [discriminate | intros [post H]; discriminate H].
    + rewrite andb_true_iff, N.eqb_eq, IH. split.
      * intros [-> [post ->]]. exists post. reflexivity.
      * intros [post H]. injection H as -> ->. split; [reflexivity |].
        exists post. reflexivity.
Qed.

(** [contains p s] holds exactly when [s] is [p] between two texts. *)
Lemma contains_app (p s : str) :
  contains p s = true <-> exists pre post, s = pre ++ p ++ post.
Proof.
  induction s as [| y s IH].
  - cbn [contains]. rewrite orb_false_r, starts_with_app. split.
    + intros [post H]. exists [], post. exact H.
    + intros [pre [post H]]. symmetry in H.
      apply app_eq_nil in H. destruct H as [_ H].
      apply app_eq_nil in H. destruct H as [-> _].
      exists []. reflexivity.
  - cbn [contains]. rewrite orb_true_iff, starts_with_app, IH. split.
    + intros [[post H] | [pre [post H]]].
      * exists [], post. exact H.
      * exists (y :: pre), post. rewrite H. reflexivity.
    + intros [[| z pre] [post H]].
      * left. exists post. exact H.
      * right. injection H as _ H. exists pre, post. exact H.
Qed.

Lemma contains_refl (p : str) : contains p p = true.
Proof. apply contains_app. exists [], []. rewrite app_nil_r. reflexivity. Qed.

Lemma contains_trans (a b c : str) :
  contains a b = true -> contains b c = true -> contains a c = true.
Proof.
  rewrite !contains_app. intros [pre1 [post1 ->]] [pre2 [post2 ->]].
  exists (pre2 ++ pre1), (post1 ++ post2).
  rewrite <- !app_assoc. reflexivity.
Qed.

Lemma contains_length (a b : str) :
  contains a b = true -> (length a <= length b)%nat.
Proof.
  rewrite contains_app. intros [pre [post ->]].
  rewrite !length_app. lia.
Qed.

Lemma contains_same_length (a b : str) :
  contains a b = true -> length a = length b -> a = b.
Proof.
  rewrite contains_app. intros [pre [post ->]] H.
  rewrite !length_app in H.
  destruct pre; [| cbn [length] in H; lia].
  destruct post; [| cbn [length] in H; lia].
  rewrite app_nil_r. reflexivity.
Qed.

Lemma str_leb_total (a b : str) : str_leb a b = true \/ str_leb b a = true.
Proof.
  revert b. induction a as [| x a IH]; intros [| y b]; cbn [str_leb]; auto.
  destruct (x <? y) eqn:E1, (y <? x) eqn:E2; auto.
Qed.

Lemma str_leb_antisym (a b : str) :
  str_leb a b = true -> str_leb b a = true -> a = b.
Proof.
  revert b. induction a as [| x a IH]; intros [| y b]; cbn [str_leb];
    try congruence.
  destruct (x <? y) eqn:E1, (y <? x) eqn:E2; try congruence.
  - apply N.ltb_lt in E1, E2. lia.
  - apply N.ltb_ge in E1, E2. intros H1 H2.
    assert (x = y) by lia. subst y. f_equal. apply IH; assumption.
Qed.

Lemma str_leb_trans (a b c : str) :
  str_leb a b = true -> str_leb b c = true -> str_leb a c = true.
Proof.
  revert b c. induction a as [| x a IH]; intros [| y b] [| z c];
    cbn [str_leb]; try congruence.
  destruct (x <? y) eqn:E1, (y <? x) eqn:E2, (y <? z) eqn:E3, (z <? y) eqn:E4,
    (x <? z) eqn:E5, (z <? x) eqn:E6; try congruence;
    try (apply N.ltb_lt in E1); try (apply N.ltb_ge in E1);
    try (apply N.ltb_lt in E2); try (apply N.ltb_ge in E2);
    try (apply N.ltb_lt in E3); try (apply N.ltb_ge in E3);
    try (apply N.ltb_lt in E4); try (apply N.ltb_ge in E4);
    try (apply N.ltb_lt in E5); try (apply N.ltb_ge in E5);
    try (apply N.ltb_lt in E6); try (apply N.ltb_ge in E6);
    try lia.
  apply IH.
Qed.

Section SortingFacts.
Context {A : Type} (le : A -> A -> bool).

Let R := holds le.

Hypothesis le_total : forall x y, le x y = true \/ le y x = true.
Hypothesis le_trans : forall x y z, le x y = true -> le y z = true -> le x z = true.

Lemma insert_by_perm (x : A) (l : list A) : Permutation (insert_by le x l) (x :: l).
Proof.
  induction l as [| y l IH]; [reflexivity |].
  cbn [insert_by]. destruct (le x y); [reflexivity |].
  rewrite IH. apply perm_swap.
Qed.

Lemma sort_by_perm (l : list A) : Permutation (sort_by le l) l.
Proof.
  induction l as [| x l IH]; [reflexivity |].
  cbn [sort_by fold_right]. fold (sort_by le l).
  rewrite insert_by_perm. apply perm_skip. exact IH.
Qed.

Lemma insert_by_sorted (x : A) (l : list A) :
  StronglySorted R l -> StronglySorted R (insert_by le x l).
Proof.
  induction l as [| y l IH]; intros Hs.
  - constructor; constructor.
  - cbn [insert_by]. inversion Hs as [| y' l' Hl Hy]; subst.
    destruct (le x y) eqn:E.
    + constructor; [exact Hs |].
      constructor; [exact E |].
      apply Forall_forall. intros z Hz.
      apply (le_trans x y z E).
      rewrite Forall_forall in Hy. apply Hy. exact Hz.
    + constructor; [apply IH; exact Hl |].
      apply Forall_forall. intros z Hz.
      apply (Permutation_in _ (insert_by_perm x l)) in Hz.
      destruct Hz as [<- | Hz].
      * destruct (le_total x y) as [H | H]; [congruence | exact H].
      * rewrite Forall_forall in Hy. apply Hy. exact Hz.
Qed.

Lemma sort_by_sorted (l : list A) : StronglySorted R (sort_by le l).
Proof.
  induction l as [| x l IH]; [constructor |].
  cbn [sort_by fold_right]. apply insert_by_sorted. exact IH.
Qed.

Hypothesis le_antisym : forall x y, le x y = true -> le y x = true -> x = y.

Lemma sorted_perm_eq (l1 l2 : list A) :
  StronglySorted R l1 -> StronglySorted R l2 -> Permutation l1 l2 -> l1 = l2.
Proof.
  revert l2. induction l1 as [| x l1 IH]; intros l2 H1 H2 Hp.
  - apply Permutation_nil in Hp. congruence.
  - destruct l2 as [| y l2].
    { symmetry in Hp. apply Permutation_nil in Hp. discriminate Hp. }
    inversion H1 as [| ? ? Hs1 Hx]; subst.
    inversion H2 as [| ? ? Hs2 Hy]; subst.
    rewrite Forall_forall in Hx, Hy.
    assert (Hxy : x = y).
    { assert (Hin1 : In x (y :: l2)).
      { apply (Permutation_in _ Hp). left. reflexivity. }
      assert (Hin2 : In y (x :: l1)).
      { apply (Permutation_in _ (Permutation_sym Hp)). left. reflexivity. }
      destruct Hin1 as [E | Hin1]; [congruence |].
      destruct Hin2 as [E | Hin2]; [congruence |].
      apply le_antisym; [apply Hx | apply Hy]; assumption. }
    subst y. f_equal.
    apply IH; [assumption | assumption |].
    apply (Permutation_cons_inv Hp).
Qed.

(** Sorting forgets the order of its argument when the order sorted by
    tells any two elements apart. *)
Lemma sort_by_permutation (l1 l2 : list A) :
  Permutation l1 l2 -> sort_by le l1 = sort_by le l2.
Proof.
  intros Hp. apply sorted_perm_eq; try apply sort_by_sorted.
  rewrite !sort_by_perm. exact Hp.
Qed.

End SortingFacts.

Lemma sorted_snoc {A : Type} (R : A -> A -> Prop) (l : list A) (t : A) :
  StronglySorted R (l ++ [t]) ->
  StronglySorted R l /\ Forall (fun u => R u t) l.
Proof.
  induction l as [| x l IH]; intros H.
  - split; constructor.
  - cbn [app] in H. inversion H as [| ? ? Hs Hx]; subst.
    destruct (IH Hs) as [Hl Ht].
    rewrite Forall_forall in Hx.
    split.
    + constructor; [exact Hl |].
      apply Forall_forall. intros z Hz. apply Hx.
      apply in_or_app. left. exact Hz.
    + constructor; [| exact Ht].
      apply Hx. apply in_or_app. right. left. reflexivity.
Qed.

Lemma nodup_snoc {A : Type} (l : list A) (t : A) :
  NoDup (l ++ [t]) -> NoDup l /\ ~ In t l.
Proof.
  intros H.
  apply (Permutation_NoDup (Permutation_app_comm l [t])) in H.
  cbn [app] in H. inversion H; subst. split; assumption.
Qed.

Section WalkOrder.
Context {U : Unicode}.
Variable lowered : str.

Lemma found_in_snoc (walk : list str) (term : str) :
  found_in lowered (walk ++ [term]) = find_step lowered (found_in lowered walk) term.
Proof. unfold found_in. rewrite fold_left_app. reflexivity. Qed.

Lemma existsb_contains (term : str) (found : list str) :
  existsb (fun existing => contains term existing) found = true
  <-> exists existing, In existing found /\ contains term existing = true.
Proof. apply existsb_exists. Qed.

(** What the loop has found is decided by the terms walked, not by the
    order among those of one length: a term is found when it occurs in the
    text and no other occurring term contains it; and every occurring term
    is contained in a found one. *)
Lemma found_in_spec (walk : list str) :
  NoDup walk -> StronglySorted longer walk ->
  (forall term,
     In term (found_in lowered walk)
     <-> In term walk /\ contains term lowered = true /\ maximal lowered walk term)
  /\ (forall term,
        In term walk -> contains term lowered = true ->
        exists existing,
          In existing (found_in lowered walk) /\ contains term existing = true).
Proof.
  induction walk as [| t walk IH] using rev_ind; intros Hnd Hs.
  - split.
    + intros term. cbn. tauto.
    + intros term [].
  - apply nodup_snoc in Hnd. destruct Hnd as [Hnd Hnew].
    apply sorted_snoc in Hs. destruct Hs as [Hs Hlen].
    rewrite Forall_forall in Hlen.
    destruct (IH Hnd Hs) as [IH1 IH2]. clear IH.
    (* a walked term keeps its being maximal when [t] joins the walk *)
    assert (Hkeep : forall u, In u walk -> maximal lowered walk u -> maximal lowered (walk ++ [t]) u).
    { intros u Hu Hmax other Hother Hocc Hcont.
      apply in_app_or in Hother. destruct Hother as [Hother | [<- | []]].
      - apply Hmax; assumption.
      - symmetry. apply contains_same_length; [exact Hcont |].
        apply contains_length in Hcont.
        specialize (Hlen u Hu). unfold longer in Hlen.
        apply Nat.leb_le in Hlen. lia. }
    assert (Hdrop : forall u, maximal lowered (walk ++ [t]) u -> maximal lowered walk u).
    { intros u Hmax other Hother. apply Hmax.
      apply in_or_app. left. exact Hother. }
    rewrite found_in_snoc, find_step_eq.
    destruct (contains t lowered) eqn:Et;
      [destruct (existsb (fun existing => contains t existing) (found_in lowered walk))
         eqn:Ec |].
    + (* [t] occurs and a found term contains it *)
      apply existsb_contains in Ec. destruct Ec as [e [He Hce]].
      split.
      * intros u. rewrite IH1. split.
        -- intros [Hu [Ho Hm]].
           split; [apply in_or_app; left; exact Hu |].
           split; [exact Ho | apply Hkeep; assumption].
        -- intros [Hu [Ho Hm]].
           apply in_app_or in Hu. destruct Hu as [Hu | [<- | []]].
           ++ split; [exact Hu |]. split; [exact Ho | apply Hdrop; exact Hm].
           ++ exfalso. apply Hnew.
              apply IH1 in He. destruct He as [He [Hoe _]].
              rewrite <- (Hm e); [exact He | | exact Hoe | exact Hce].
              apply in_or_app. left. exact He.
      * intros u Hu Ho.
        apply in_app_or in Hu. destruct Hu as [Hu | [<- | []]].
        -- apply IH2; assumption.
        -- exists e. split; assumption.
    + (* [t] occurs and no found term contains it *)
      split.
      * intros u. rewrite in_app_iff, IH1. split.
        -- intros [[Hu [Ho Hm]] | [<- | []]].
           ++ split; [apply in_or_app; left; exact Hu |].
              split; [exact Ho | apply Hkeep; assumption].
           ++ split; [apply in_or_app; right; left; reflexivity |].
              split; [exact Et |].
              intros other Hother Hocc Hcont.
              apply in_app_or in Hother.
              destruct Hother as [Hother | [<- | []]]; [| reflexivity].
              exfalso.
              destruct (IH2 other Hother Hocc) as [e [He Hce]].
              assert (Hex : existsb (fun existing => contains t existing)
                              (found_in lowered walk) = true).
              { apply existsb_contains. exists e. split; [exact He |].
                apply (contains_trans _ _ _ Hcont Hce). }
              congruence.
        -- intros [Hu [Ho Hm]].
           apply in_app_or in Hu. destruct Hu as [Hu | [<- | []]].
           ++ left. split; [exact Hu |].
              split; [exact Ho | apply Hdrop; exact Hm].
           ++ right. left. reflexivity.
      * intros u Hu Ho.
        apply in_app_or in Hu. destruct Hu as [Hu | [<- | []]].
        -- destruct (IH2 u Hu Ho) as [e [He Hce]].
           exists e. split; [apply in_or_app; left; exact He | exact Hce].
        -- exists t. split; [apply in_or_app; right; left; reflexivity |].
           apply contains_refl.
    + (* [t] does not occur *)
      split.
      * intros u. rewrite IH1. split.
        -- intros [Hu [Ho Hm]].
           split; [apply in_or_app; left; exact Hu |].
           split; [exact Ho | apply Hkeep; assumption].
        -- intros [Hu [Ho Hm]].
           apply in_app_or in Hu. destruct Hu as [Hu | [<- | []]].
           ++ split; [exact Hu |]. split; [exact Ho | apply Hdrop; exact Hm].
           ++ congruence.
      * intros u Hu Ho.
        apply in_app_or in Hu. destruct Hu as [Hu | [<- | []]].
        -- apply IH2; assumption.
        -- congruence.
Qed.

Lemma found_in_nodup (walk : list str) :
  NoDup walk ->
  NoDup (found_in lowered walk) /\ (forall term, In term (found_in lowered walk) -> In term walk).
Proof.
  induction walk as [| t walk IH] using rev_ind; intros Hnd.
  - split; [constructor | intros term []].
  - apply nodup_snoc in Hnd. destruct Hnd as [Hnd Hnew].
    destruct (IH Hnd) as [IH1 IH2]. clear IH.
    rewrite found_in_snoc, find_step_eq.
    destruct (contains t lowered);
      [destruct (existsb (fun existing => contains t existing) (found_in lowered walk)) |].
    + split; [exact IH1 |].
      intros term H. apply in_or_app. left. apply IH2. exact H.
    + split.
      * apply (Permutation_NoDup (Permutation_app_comm [t] (found_in lowered walk))).
        cbn [app]. constructor; [| exact IH1].
        intros H. apply Hnew. apply IH2. exact H.
      * intros term H. apply in_app_or in H. apply in_or_app.
        destruct H as [H | H]; [left; apply IH2; exact H | right; exact H].
    + split; [exact IH1 |].
      intros term H. apply in_or_app. left. apply IH2. exact H.
Qed.

End WalkOrder.

Lemma set_elements_in (l : list str) (x : str) :
  In x (set_elements l) <-> In x l.
Proof.
  induction l as [| y l IH]; [reflexivity |].
  cbn [set_elements In]. rewrite filter_In, IH, negb_true_iff. split.
  - intros [H | [H _]]; auto.
  - intros [H | H]; [left; exact H |].
    destruct (str_eqb y x) eqn:E.
    + left. apply str_eqb_eq. exact E.
    + right. split; [exact H | reflexivity].
Qed.

Lemma set_elements_nodup (l : list str) : NoDup (set_elements l).
Proof.
  induction l as [| y l IH]; [constructor |].
  cbn [set_elements]. constructor.
  - rewrite filter_In, negb_true_iff. intros [_ H].
    assert (str_eqb y y = true) by (apply str_eqb_eq; reflexivity).
    congruence.
  - apply NoDup_filter. exact IH.
Qed.

Lemma longest_first_perm (l : list str) : Permutation (longest_first l) l.
Proof. apply sort_by_perm. Qed.

Lemma longest_first_sorted (l : list str) : StronglySorted longer (longest_first l).
Proof.
  apply (sort_by_sorted (fun x y => Nat.leb (length y) (length x))).
  - intros x y.
    destruct (Nat.leb (length y) (length x)) eqn:E; [left; reflexivity |].
    right. apply Nat.leb_gt in E. apply Nat.leb_le. lia.
  - intros x y z H1 H2. apply Nat.leb_le in H1, H2. apply Nat.leb_le. lia.
Qed.

Section AnyWalk.
Context {U : Unicode}.

Lemma find_terms_in_permutation (elements1 elements2 : list str) (text : str) :
  NoDup elements1 ->
  Permutation elements1 elements2 ->
  _find_terms_in elements1 text = _find_terms_in elements2 text.
Proof.
  intros Hnd1 Hp.
  assert (Hnd2 : NoDup elements2) by apply (Permutation_NoDup Hp Hnd1).
  unfold _find_terms_in. cbv zeta.
  fold (found_in (lower text) (longest_first elements1)).
  fold (found_in (lower text) (longest_first elements2)).
  apply sort_by_permutation;
    [exact str_leb_total | exact str_leb_trans | exact str_leb_antisym |].
  assert (Hl1 : NoDup (longest_first elements1)).
  { apply (Permutation_NoDup (Permutation_sym (longest_first_perm _)) Hnd1). }
  assert (Hl2 : NoDup (longest_first elements2)).
  { apply (Permutation_NoDup (Permutation_sym (longest_first_perm _)) Hnd2). }
  assert (Hin : forall x, In x (longest_first elements1)
                          <-> In x (longest_first elements2)).
  { intros x. split; intros H.
    - apply (Permutation_in _ (Permutation_sym (longest_first_perm _))).
      apply (Permutation_in _ Hp).
      apply (Permutation_in _ (longest_first_perm _)). exact H.
    - apply (Permutation_in _ (Permutation_sym (longest_first_perm _))).
      apply (Permutation_in _ (Permutation_sym Hp)).
      apply (Permutation_in _ (longest_first_perm _)). exact H. }
  apply NoDup_Permutation.
  - apply found_in_nodup. exact Hl1.
  - apply found_in_nodup. exact Hl2.
  - intros x.
    rewrite (proj1 (found_in_spec _ _ Hl1 (longest_first_sorted _)) x).
    rewrite (proj1 (found_in_spec _ _ Hl2 (longest_first_sorted _)) x).
    unfold maximal. rewrite Hin.
    split; intros [H1 [H2 H3]]; (split; [exact H1 |]); (split; [exact H2 |]);
      intros other Hother; apply H3; apply Hin; exact Hother.
Qed.

(** X1.  Whatever the order in which Python walks the set of the terms,
    the list that [_find_terms] returns is the one of the model, which walks
    the terms in the order of their first occurrence. *)
Theorem find_terms_any_walk (elements term_list : list str) (text : str) :
  Permutation elements (set_elements term_list) ->
  _find_terms_in elements text = _find_terms text term_list.
Proof.
  intros Hp. unfold _find_terms. symmetry.
  apply find_terms_in_permutation.
  - apply set_elements_nodup.
  - apply Permutation_sym. exact Hp.
Qed.

End AnyWalk.

Lemma find_terms_any_walk_witness :
  _find_terms_in (rev (set_elements AMBIGUOUS_TERMS)) help_prompt
  = _find_terms help_prompt AMBIGUOUS_TERMS.
Proof.
  apply (find_terms_any_walk (rev (set_elements AMBIGUOUS_TERMS))
           AMBIGUOUS_TERMS help_prompt).
  apply Permutation_sym, Permutation_rev.
Defined.

(** ** What the vocabulary scan reports *)

Lemma mem_in (x : str) (l : list str) : mem x l = true <-> In x l.
Proof.
  unfold mem. rewrite existsb_exists. split.
  - intros [y [Hy E]]. apply str_eqb_eq in E. subst y. exact Hy.
  - intros H. exists x. split; [exact H | apply str_eqb_eq; reflexivity].
Qed.

Lemma sorted_in (l : list str) (x : str) : In x (sorted l) <-> In x l.
Proof.
  unfold sorted. split; intros H.
  - apply (Permutation_in _ (sort_by_perm str_leb l)). exact H.
  - apply (Permutation_in _ (Permutation_sym (sort_by_perm str_leb l))). exact H.
Qed.

Lemma sorted_nodup (l : list str) : NoDup l -> NoDup (sorted l).
Proof.
  intros H. unfold sorted.
  apply (Permutation_NoDup (Permutation_sym (sort_by_perm str_leb l)) H).
Qed.

Lemma sorted_ascending (l : list str) : StronglySorted (holds str_leb) (sorted l).
Proof.
  unfold sorted. apply sort_by_sorted;
    [exact str_leb_total | exact str_leb_trans].
Qed.

Section FindTermsReport.
Context {U : Unicode}.

(** X2.  For every text and list of terms, [_find_terms] returns an
    ascending list without repeats of terms of the list that occur in the
    lowered text; no returned term lies inside another returned term; and
    every term of the list that occurs lies inside a returned one. *)
Theorem find_terms_report (text : str) (term_list : list str) :
  let found := _find_terms text term_list in
  StronglySorted (holds str_leb) found
  /\ NoDup found
  /\ (forall term, In term found ->
        In term term_list /\ contains term (lower text) = true)
  /\ (forall term other, In term found -> In other found ->
        contains term other = true -> term = other)
  /\ (forall term, In term term_list -> contains term (lower text) = true ->
        exists other, In other found /\ contains term other = true).
Proof.
  intros found. unfold found, _find_terms, _find_terms_in. cbv zeta.
  fold (found_in (lower text) (longest_first (set_elements term_list))).
  set (walk := longest_first (set_elements term_list)).
  assert (Hnd : NoDup walk).
  { apply (Permutation_NoDup (Permutation_sym (longest_first_perm _))).
    apply set_elements_nodup. }
  assert (Hwalk : forall x, In x walk <-> In x term_list).
  { intros x. split; intros H.
    - apply set_elements_in.
      apply (Permutation_in _ (longest_first_perm _)). exact H.
    - apply (Permutation_in _ (Permutation_sym (longest_first_perm _))).
      apply set_elements_in. exact H. }
  destruct (found_in_spec (lower text) walk Hnd (longest_first_sorted _))
    as [Hspec Hcover].
  split; [apply sorted_ascending |].
  split; [apply sorted_nodup, found_in_nodup; exact Hnd |].
  split; [| split].
  - intros term H. apply sorted_in, Hspec in H. destruct H as [H1 [H2 _]].
    split; [apply Hwalk; exact H1 | exact H2].
  - intros term other Ht Ho Hc.
    apply sorted_in, Hspec in Ht. apply sorted_in, Hspec in Ho.
    destruct Ht as [_ [_ Hmax]]. destruct Ho as [Ho1 [Ho2 _]].
    symmetry. apply Hmax; assumption.
  - intros term Hin Hocc.
    destruct (Hcover term (proj2 (Hwalk term) Hin) Hocc) as [other [Ho Hc]].
    exists other. split; [apply sorted_in; exact Ho | exact Hc].
Qed.

End FindTermsReport.

Lemma normalize_terms_fold (terms : list str) :
  forall acc : list str,
  let result :=
    fold_left
      (fun normalized term =>
         let term := if str_eqb term (txt "help me with") then txt "help" else term in
         if negb (mem term normalized) then normalized ++ [term] else normalized)
      terms acc in
  (NoDup acc -> NoDup result)
  /\ (forall x, In x result <-> In x acc \/ exists t, In t terms /\ renamed t = x).
Proof.
  induction terms as [| t terms IH]; intros acc; cbv zeta.
  - cbn [fold_left]. split; [auto |].
    intros x. split; [auto |]. intros [H | [t [[] _]]]. exact H.
  - cbn [fold_left]. fold (renamed t).
    destruct (mem (renamed t) acc) eqn:E; cbn [negb].
    + destruct (IH acc) as [IH1 IH2]. split; [exact IH1 |].
      intros x. rewrite IH2. apply mem_in in E. split.
      * intros [H | [t' [H1 H2]]]; [left; exact H |].
        right. exists t'. split; [right; exact H1 | exact H2].
      * intros [H | [t' [[<- | H1] H2]]].
        -- left. exact H.
        -- left. rewrite <- H2. exact E.
        -- right. exists t'. split; assumption.
    + destruct (IH (acc ++ [renamed t])) as [IH1 IH2]. split.
      * intros Hnd. apply IH1.
        apply (Permutation_NoDup (Permutation_app_comm [renamed t] acc)).
        cbn [app]. constructor; [| exact Hnd].
        intros H. apply mem_in in H. congruence.
      * intros x. rewrite IH2, in_app_iff. split.
        -- intros [[H | [<- | []]] | [t' [H1 H2]]].
           ++ left. exact H.
           ++ right. exists t. split; [left; reflexivity | reflexivity].
           ++ right. exists t'. split; [right; exact H1 | exact H2].
        -- intros [H | [t' [[<- | H1] H2]]].
           ++ left. left. exact H.
           ++ left. right. left. exact H2.
           ++ right. exists t'. split; assumption.
Qed.

(** [_normalize_terms] lists each renamed term once. *)
Lemma normalize_terms_spec (terms : list str) :
  NoDup (_normalize_terms terms)
  /\ (forall x, In x (_normalize_terms terms)
                <-> exists t, In t terms /\ renamed t = x).
Proof.
  destruct (normalize_terms_fold terms []) as [H1 H2].
  split; [apply H1; constructor |].
  intros x. unfold _normalize_terms. rewrite (H2 x).
  split; [intros [[] | H]; exact H | intros H; right; exact H].
Qed.

Lemma help_inside (term : str) :
  In term AMBIGUOUS_TERMS -> contains (txt "help") term = true ->
  term = txt "help" \/ term = txt "help me with".
Proof.
  intros Hin Hc. vm_compute in Hin.
  repeat (destruct Hin as [Hin | Hin];
          [subst term;
           first [ left; reflexivity | right; reflexivity
                 | vm_compute in Hc; discriminate Hc ] |]).
  destruct Hin.
Qed.

Section AmbiguousReport.
Context {U : Unicode}.

(** X3.  The ambiguous terms that the analysis reports are terms of the
    vocabulary other than "help me with", each listed once, so at most 16
    of them; and "help" is among them exactly when "help" occurs in the
    lowered text. *)
Theorem ambiguous_terms_report (text : str) :
  let amb := ambiguous_terms (flags (analyze_prompt text)) in
  NoDup amb
  /\ (forall term, In term amb -> In term reported_vocabulary)
  /\ (length amb <= 16)%nat
  /\ (In (txt "help") amb <-> contains (txt "help") (lower text) = true).
Proof.
  intros amb. unfold amb. rewrite analyze_ambiguous.
  destruct (normalize_terms_spec (_find_terms text AMBIGUOUS_TERMS)) as [Hnd Hin].
  destruct (find_terms_report text AMBIGUOUS_TERMS) as [_ [_ [Hsub [_ Hcover]]]].
  assert (Hvoc : forall term,
             In term (_normalize_terms (_find_terms text AMBIGUOUS_TERMS)) ->
             In term reported_vocabulary).
  { intros term H. apply Hin in H. destruct H as [t [Ht <-]].
    apply Hsub in Ht. destruct Ht as [Ht _].
    unfold reported_vocabulary. apply filter_In. unfold renamed.
    destruct (str_eqb t (txt "help me with")) eqn:E.
    - split; [vm_compute; auto 20 | reflexivity].
    - split; [exact Ht | rewrite E; reflexivity]. }
  split; [exact Hnd |].
  split; [exact Hvoc |].
  split.
  { change 16%nat with (length reported_vocabulary).
    apply NoDup_incl_length; [exact Hnd | exact Hvoc]. }
  rewrite Hin. split.
  - intros [t [Ht Hr]]. apply Hsub in Ht. destruct Ht as [Ht Hocc].
    unfold renamed in Hr.
    destruct (str_eqb t (txt "help me with")) eqn:E.
    + apply str_eqb_eq in E. subst t.
      apply (contains_trans _ (txt "help me with")); [reflexivity | exact Hocc].
    + subst t. exact Hocc.
  - intros Hocc.
    destruct (Hcover (txt "help")) as [other [Ho Hc]];
      [vm_compute; auto 20 | exact Hocc |].
    exists other. split; [exact Ho |].
    destruct (help_inside other (proj1 (Hsub other Ho)) Hc) as [-> | ->];
      reflexivity.
Qed.

End AmbiguousReport.

(** ** The score and the notes as functions of the checks and flags *)

(** X4.  [_calculate_score] stays within 0..100 whatever it is given, and
    it never falls when checks are gained and flags are lost. *)
Theorem calculate_score_monotone (c c' : Checks) (amb amb' vague vague' : list str)
  (d d' : Z) :
  (true_checks c <= true_checks c')%Z ->
  (length amb' <= length amb)%nat ->
  (length vague' <= length vague)%nat ->
  (d' <= d)%Z ->
  (0 <= _calculate_score c amb vague d
   <= _calculate_score c' amb' vague' d')%Z
  /\ (_calculate_score c' amb' vague' d' <= 100)%Z.
Proof.
  intros Hc Ha Hv Hd. rewrite !calculate_score_eq. unfold clamp, len. lia.
Qed.

Lemma calculate_score_monotone_witness :
  (0 <= _calculate_score no_checks [txt "help"] [] 2
   <= _calculate_score all_checks [] [] 0)%Z
  /\ (_calculate_score all_checks [] [] 0 <= 100)%Z.
Proof.
  apply (calculate_score_monotone no_checks all_checks [txt "help"] [] [] [] 2 0).
  - vm_compute. discriminate.
  - cbn. lia.
  - cbn. lia.
  - lia.
Defined.

Lemma missing_notes_length (c : Checks) :
  Z.of_nat
    (length
       (flat_map
          (fun km => if negb (get (items c) (fst km) false) then [snd km] else [])
          missing_messages))
  = (8 - true_checks c)%Z.
Proof. destruct c as [[] [] [] [] [] [] [] []]; reflexivity. Qed.

Lemma other_notes_length (c : Checks) (amb vague : list str) (d : Z) :
  Z.of_nat (length (other_notes c amb vague d))
  = (8 - true_checks c + some_of amb + some_of vague
     + (if (d =? 0)%Z then 0 else 1))%Z.
Proof.
  unfold other_notes. rewrite !length_app, !Nat2Z.inj_add, missing_notes_length.
  destruct amb, vague, (d =? 0)%Z; cbn [length some_of]; lia.
Qed.

Lemma true_checks_all (c : Checks) : true_checks c = 8%Z -> c = all_checks.
Proof.
  destruct c as [[] [] [] [] [] [] [] []]; intros H;
    first [reflexivity | vm_compute in H; discriminate H].
Qed.

(** X5.  [_build_notes] gives one note per missing check, one per kind of
    flag that is raised, and the fallback note alone when that leaves
    nothing; so the fallback note is the whole list exactly when all eight
    checks hold and no flag is raised. *)
Theorem build_notes_count (c : Checks) (amb vague : list str) (d : Z) :
  Z.of_nat (length (_build_notes c amb vague d))
  = Z.max 1 (8 - true_checks c + some_of amb + some_of vague
             + (if (d =? 0)%Z then 0 else 1))
  /\ (_build_notes c amb vague d = [fallback_note]
      <-> true_checks c = 8%Z /\ amb = [] /\ vague = [] /\ d = 0%Z).
Proof.
  pose proof (other_notes_length c amb vague d) as Hlen.
  pose proof (true_checks_range c) as Hc.
  assert (Ha : (0 <= some_of amb <= 1)%Z) by (destruct amb; cbn; lia).
  assert (Hv : (0 <= some_of vague <= 1)%Z) by (destruct vague; cbn; lia).
  split.
  - rewrite build_notes_other.
    destruct (other_notes c amb vague d) eqn:E.
    + cbn [length] in *. destruct (d =? 0)%Z; lia.
    + rewrite Hlen. cbn [length] in Hlen. destruct (d =? 0)%Z; lia.
  - split.
    + intros H.
      assert (Hin : In fallback_note (_build_notes c amb vague d)).
      { rewrite H. left. reflexivity. }
      apply fallback_only_alone in Hin. destruct Hin as [Hnone _].
      rewrite Hnone in Hlen. cbn [length] in Hlen.
      destruct (d =? 0)%Z eqn:Ed; [| lia].
      apply Z.eqb_eq in Ed.
      destruct amb; [| cbn [some_of] in *; lia].
      destruct vague; [| cbn [some_of] in *; lia].
      cbn [some_of] in Hlen. repeat split; [lia | exact Ed].
    + intros [H8 [-> [-> ->]]].
      rewrite (true_checks_all c H8). reflexivity.
Qed.

Section RecapBound.
Context {U : Unicode}.

(** X6.  The recap of a source is never longer than 140 characters.  For
    the empty source it is the fixed sentence, and nothing else; for any
    other source it is the cleaned source when that has at most 140
    characters, and otherwise its first 137 characters followed by "...",
    140 characters in all. *)
Theorem summarize_source_bound (source : str) :
  (length (_summarize_source source) <= 140)%nat
  /\ (source = []
      /\ _summarize_source source = txt "No original request provided."
      \/ source <> []
         /\ (length (cleaned_source source) <= 140)%nat
         /\ _summarize_source source = cleaned_source source
      \/ source <> []
         /\ (140 < length (cleaned_source source))%nat
         /\ _summarize_source source
            = firstn 137 (cleaned_source source) ++ txt "..."
         /\ length (_summarize_source source) = 140%nat).
Proof.
  destruct source as [| c source'].
  - split; [vm_compute; lia |]. left. split; reflexivity.
  - destruct (Nat.leb (length (cleaned_source (c :: source'))) 140) eqn:E.
    + apply Nat.leb_le in E.
      rewrite summarize_short by (discriminate || exact E).
      split; [exact E |]. right. left.
      split; [discriminate |]. split; [exact E | reflexivity].
    + apply Nat.leb_gt in E.
      rewrite summarize_long by (discriminate || exact E).
      assert (Hlen : length (firstn 137 (cleaned_source (c :: source'))
                             ++ txt "...") = 140%nat).
      { rewrite length_app, length_firstn.
        change (length (txt "...")) with 3%nat. lia. }
      split; [lia |]. right. right.
      split; [discriminate |]. split; [exact E |].
      split; [reflexivity | exact Hlen].
Qed.

End RecapBound.

(** ** The shape of what [_replace_ambiguous_terms] returns *)

Section CleanShape.
Context {U : Unicode}.

(** After [re.sub(r" {2,}", " ", s)] no space is followed by a space. *)
Lemma single_spaced_scan (s : str) :
  forall (prev : option char) (skip : nat) (b : bool),
  (skip = 0%nat \/ skip = length (run_of (N.eqb 32) s)) ->
  (b = true -> skip = 0%nat -> run_of (N.eqb 32) s = []) ->
  single_spaced b (render (txt " ") (scan false SPACES prev s skip)) = true.
Proof.
  induction s as [| c s IH]; intros prev skip b Hskip Hb.
  - rewrite scan_nil by reflexivity. reflexivity.
  - destruct skip as [| k].
    + destruct (Nat.leb 2 (length (run_of (N.eqb 32) (c :: s)))) eqn:E.
      * apply Nat.leb_le in E.
        destruct (reps_long (N.eqb 32) (c :: s) 2 prev E) as [rest Hrest].
        rewrite (scan_hit false SPACES prev
                   (last_char prev (run_of (N.eqb 32) (c :: s))) c s
                   (after_run (N.eqb 32) (c :: s)) rest
                   (pred (length (run_of (N.eqb 32) (c :: s))))).
        2:{ exact Hrest. }
        2:{ rewrite (run_length (N.eqb 32) (c :: s)). lia. }
        unfold render. cbn [flat_map]. fold (render (txt " ")).
        change (txt " ") with [32] at 1. cbn [app single_spaced].
        assert (b = false) as ->.
        { destruct b; [| reflexivity].
          rewrite (Hb eq_refl eq_refl) in E. cbn in E. lia. }
        cbn [andb negb].
        cbn [run_of] in E |- *.
        destruct (32 =? c) eqn:E32; [| cbn in E; lia].
        cbn [length pred].
        apply IH; [right; reflexivity |].
        intros _ H0. destruct (run_of (N.eqb 32) s); [reflexivity | discriminate H0].
      * apply Nat.leb_gt in E.
        rewrite scan_gap by (apply reps_short; exact E).
        unfold render. cbn [flat_map]. fold (render (txt " ")).
        cbn [app single_spaced].
        apply andb_true_iff. split.
        { destruct b; [| reflexivity].
          specialize (Hb eq_refl eq_refl). cbn [run_of] in Hb.
          rewrite N.eqb_sym.
          destruct (32 =? c); [discriminate Hb | reflexivity]. }
        apply IH; [left; reflexivity |].
        intros Hc _. cbn [run_of] in E. rewrite N.eqb_sym in Hc.
        rewrite Hc in E. cbn [length] in E.
        destruct (run_of (N.eqb 32) s); [reflexivity | cbn [length] in E; lia].
    + rewrite scan_skip.
      destruct Hskip as [Hskip | Hskip]; [discriminate Hskip |].
      cbn [run_of] in Hskip.
      destruct (32 =? c); [| discriminate Hskip].
      cbn [length] in Hskip. injection Hskip as Hk.
      apply IH; [right; exact Hk |].
      intros _ H0. subst k.
      destruct (run_of (N.eqb 32) s); [reflexivity | discriminate H0].
Qed.

Lemma single_spaced_no_pair (s : str) :
  forall after_space : bool,
  single_spaced after_space s = true -> contains (txt "  ") s = false.
Proof.
  induction s as [| c s IH]; intros after_space H; [reflexivity |].
  cbn [single_spaced] in H. apply andb_true_iff in H. destruct H as [_ H].
  cbn [contains]. rewrite (IH _ H), orb_false_r.
  change (txt "  ") with [32; 32]. cbn [starts_with].
  destruct (32 =? c) eqn:Ec; [| reflexivity].
  destruct s as [| d s]; [reflexivity |].
  destruct (32 =? d) eqn:Ed; [| reflexivity].
  apply N.eqb_eq in Ec, Ed. subst c d.
  cbn in H. discriminate H.
Qed.

(** What is inside the stripped text is inside the text. *)
Lemma contains_strip (p s : str) :
  contains p (strip s) = true -> contains p s = true.
Proof.
  unfold strip. intros H.
  destruct (lstrip_suffix s) as [before Hs].
  destruct (rstrip_prefix (lstrip s)) as [after Ht].
  apply contains_app in H. destruct H as [pre [post H]].
  apply contains_app. exists (before ++ pre), (post ++ after).
  rewrite Hs at 1. rewrite Ht at 1. rewrite H.
  rewrite <- !app_assoc. reflexivity.
Qed.

Lemma lstrip_fixed (s : str) :
  match s with c :: _ => isspace c = false | [] => True end -> lstrip s = s.
Proof. destruct s as [| c s]; [reflexivity |]. cbn [lstrip]. intros ->. reflexivity. Qed.

Lemma lstrip_head (s : str) :
  match lstrip s with c :: _ => isspace c = false | [] => True end.
Proof.
  induction s as [| c s IH]; [exact I |].
  cbn [lstrip]. destruct (isspace c) eqn:E; [exact IH | exact E].
Qed.

Lemma lstrip_lstrip (s : str) : lstrip (lstrip s) = lstrip s.
Proof. apply lstrip_fixed, lstrip_head. Qed.

Lemma rstrip_rstrip (s : str) : rstrip (rstrip s) = rstrip s.
Proof. unfold rstrip. rewrite rev_involutive, lstrip_lstrip. reflexivity. Qed.

(** Stripping a stripped text changes nothing. *)
Lemma strip_strip (s : str) : strip (strip s) = strip s.
Proof.
  unfold strip.
  assert (H : lstrip (rstrip (lstrip s)) = rstrip (lstrip s)).
  { apply lstrip_fixed.
    pose proof (lstrip_head s) as Hh.
    destruct (rstrip_prefix (lstrip s)) as [dropped E].
    destruct (rstrip (lstrip s)) as [| c p]; [exact I |].
    rewrite E in Hh. exact Hh. }
  rewrite H. apply rstrip_rstrip.
Qed.

(** X7.  Whatever it is given, [_replace_ambiguous_terms] returns a text
    without whitespace at either end, without two spaces in a row, without
    whitespace after a newline and without a blank line. *)
Theorem replace_ambiguous_terms_shape (text : str) :
  let result := _replace_ambiguous_terms text in
  strip result = result
  /\ contains (txt "  ") result = false
  /\ tidy false result = true
  /\ contains (nl ++ nl) result = false.
Proof.
  intros result.
  split; [| split; [| split]].
  - unfold result, _replace_ambiguous_terms. cbv zeta. apply strip_strip.
  - destruct (contains (txt "  ") result) eqn:E; [| reflexivity].
    unfold result, _replace_ambiguous_terms in E. cbv zeta in E.
    apply contains_strip in E.
    rewrite (single_spaced_no_pair _ false) in E; [discriminate E |].
    unfold sub. apply single_spaced_scan; [left; reflexivity |].
    intros H. discriminate H.
  - apply replace_ambiguous_terms_tidy.
  - apply (tidy_no_blank_line _ false), replace_ambiguous_terms_tidy.
Qed.

End CleanShape.

(** ** The keywords *)

Lemma str_eqb_refl (a : str) : str_eqb a a = true.
Proof. apply str_eqb_eq. reflexivity. Qed.

Lemma str_eqb_sym (a b : str) : str_eqb a b = str_eqb b a.
Proof.
  destruct (str_eqb a b) eqn:E1, (str_eqb b a) eqn:E2; try reflexivity.
  - apply str_eqb_eq in E1. subst b. rewrite str_eqb_refl in E2. discriminate E2.
  - apply str_eqb_eq in E2. subst b. rewrite str_eqb_refl in E1. discriminate E1.
Qed.

Lemma count_up_keys (word : str) (counts : list (str * nat)) :
  (forall x, In x (map fst (count_up word counts))
             <-> x = word \/ In x (map fst counts))
  /\ (NoDup (map fst counts) -> NoDup (map fst (count_up word counts))).
Proof.
  induction counts as [| [k n] rest [IH1 IH2]].
  - split.
    + intros x. cbn. intuition congruence.
    + intros _. cbn. constructor; [intros [] | constructor].
  - cbn [count_up]. destruct (str_eqb k word) eqn:E.
    + apply str_eqb_eq in E. subst k. split.
      * intros x. cbn. intuition congruence.
      * intros H. exact H.
    + split.
      * intros x. cbn [map fst In]. rewrite IH1. intuition congruence.
      * intros H. cbn [map fst] in *. inversion H as [| ? ? Hk Hrest]; subst.
        constructor; [| apply IH2; exact Hrest].
        rewrite IH1. intros [-> | H']; [| contradiction].
        rewrite str_eqb_refl in E. discriminate E.
Qed.

Lemma count_up_count (word k : str) (counts : list (str * nat)) :
  count_of k (count_up word counts)
  = (count_of k counts + if str_eqb word k then 1 else 0)%nat.
Proof.
  induction counts as [| [k' n] rest IH].
  - cbn [count_up count_of]. destruct (str_eqb word k); reflexivity.
  - cbn [count_up]. destruct (str_eqb k' word) eqn:E.
    + apply str_eqb_eq in E. subst k'. cbn [count_of].
      destruct (str_eqb word k); lia.
    + cbn [count_of]. destruct (str_eqb k' k) eqn:Ek; [| exact IH].
      apply str_eqb_eq in Ek. subst k'.
      rewrite str_eqb_sym, E. lia.
Qed.

Lemma counter_fold (l : list str) :
  forall counts : list (str * nat),
  let result := fold_left (fun counts word => count_up word counts) l counts in
  (forall x, In x (map fst result) <-> In x l \/ In x (map fst counts))
  /\ (NoDup (map fst counts) -> NoDup (map fst result))
  /\ (forall k, count_of k result = (count_of k counts + occurrences k l)%nat).
Proof.
  induction l as [| w l IH]; intros counts; cbv zeta.
  - cbn [fold_left]. split; [| split].
    + intros x. cbn. tauto.
    + auto.
    + intros k. cbn. lia.
  - cbn [fold_left].
    destruct (IH (count_up w counts)) as [IH1 [IH2 IH3]].
    destruct (count_up_keys w counts) as [Hk1 Hk2].
    split; [| split].
    + intros x. rewrite IH1, Hk1. cbn [In]. split.
      * intros [H | [H | H]]; auto.
      * intros [[H | H] | H]; auto.
    + intros H. apply IH2, Hk2, H.
    + intros k. rewrite IH3, count_up_count.
      unfold occurrences. cbn [filter]. rewrite (str_eqb_sym k w).
      destruct (str_eqb w k); cbn [length]; lia.
Qed.

Lemma count_of_in (k : str) (n : nat) (counts : list (str * nat)) :
  NoDup (map fst counts) -> In (k, n) counts -> count_of k counts = n.
Proof.
  induction counts as [| [k' n'] rest IH]; intros Hnd Hin; [destruct Hin |].
  cbn [map fst] in Hnd. inversion Hnd as [| ? ? Hk Hrest]; subst.
  cbn [count_of]. destruct Hin as [E | Hin].
  - injection E as -> ->. rewrite str_eqb_refl. reflexivity.
  - destruct (str_eqb k' k) eqn:E; [| apply IH; assumption].
    apply str_eqb_eq in E. subst k'. exfalso. apply Hk.
    apply (in_map fst) in Hin. exact Hin.
Qed.

Lemma firstn_in {A : Type} (n : nat) (l : list A) (x : A) :
  In x (firstn n l) -> In x l.
Proof.
  intros H. rewrite <- (firstn_skipn n l). apply in_or_app. left. exact H.
Qed.

Lemma firstn_nodup {A : Type} (n : nat) (l : list A) :
  NoDup l -> NoDup (firstn n l).
Proof.
  intros H. rewrite <- (firstn_skipn n l) in H.
  apply (NoDup_app_remove_r _ _ H).
Qed.

Lemma firstn_sorted {A : Type} (R : A -> A -> Prop) (n : nat) (l : list A) :
  StronglySorted R l -> StronglySorted R (firstn n l).
Proof.
  revert n. induction l as [| x l IH]; intros n H.
  - destruct n; constructor.
  - destruct n; [constructor |].
    inversion H as [| ? ? Hs Hx]; subst.
    cbn [firstn]. constructor; [apply IH; exact Hs |].
    rewrite Forall_forall in *. intros y Hy. apply Hx.
    apply (firstn_in _ _ _ Hy).
Qed.

Lemma occurrences_filter (P : str -> bool) (k : str) (l : list str) :
  P k = true -> occurrences k (filter P l) = occurrences k l.
Proof.
  intros Hk. unfold occurrences.
  induction l as [| x l IH]; [reflexivity |].
  cbn [filter]. destruct (P x) eqn:Ex.
  - cbn [filter]. destruct (str_eqb k x); cbn [length]; rewrite IH; reflexivity.
  - destruct (str_eqb k x) eqn:E; [| exact IH].
    apply str_eqb_eq in E. subst x. congruence.
Qed.

Section Keywords.
Context {U : Unicode}.

(** X8.  [_extract_keywords] returns at most [limit] keywords, each once;
    each is a token of the lowered text that is longer than two
    characters and in none of the three word lists; and a keyword is never
    less frequent among the tokens than the keywords after it. *)
Theorem extract_keywords_report (text : str) (limit : nat) :
  let tokens := findall false TOKEN_PATTERN (lower text) in
  let keywords := _extract_keywords text limit in
  (length keywords <= limit)%nat
  /\ NoDup keywords
  /\ (forall k, In k keywords ->
        In k tokens /\ (2 < length k)%nat
        /\ mem k STOPWORDS = false
        /\ mem k AMBIGUOUS_SET = false
        /\ mem k VAGUE_SET = false)
  /\ StronglySorted (as_frequent tokens) keywords.
Proof.
  intros tokens keywords. unfold keywords, _extract_keywords. cbv zeta.
  fold tokens.
  set (keep := fun token : str =>
         negb (mem token STOPWORDS) && negb (mem token AMBIGUOUS_SET)
         && negb (mem token VAGUE_SET) && Nat.ltb 2 (length token)).
  set (filtered := filter keep tokens).
  unfold most_common, Counter.
  destruct (counter_fold filtered []) as [Hkeys [Hnd Hcount]].
  cbv zeta in Hkeys, Hnd, Hcount.
  set (counts := fold_left (fun counts word => count_up word counts) filtered [])
    in *.
  set (by_count := fun a b : str * nat => Nat.leb (snd b) (snd a)).
  pose proof (sort_by_perm by_count counts) as Hperm.
  assert (Hnd' : NoDup (map fst (sort_by by_count counts))).
  { apply (Permutation_NoDup
             (Permutation_map fst (Permutation_sym Hperm))).
    apply Hnd. constructor. }
  assert (Hkeep : forall k, In k (map fst (sort_by by_count counts)) ->
                            In k tokens /\ keep k = true).
  { intros k H.
    apply (Permutation_in _ (Permutation_map fst Hperm)) in H.
    apply Hkeys in H. destruct H as [H | []].
    apply filter_In in H. exact H. }
  rewrite <- firstn_map.
  split; [| split; [| split]].
  - rewrite length_firstn. lia.
  - apply firstn_nodup. exact Hnd'.
  - intros k Hk. apply firstn_in, Hkeep in Hk. destruct Hk as [Ht Hk].
    unfold keep in Hk.
    repeat (apply andb_true_iff in Hk; destruct Hk as [Hk ?]).
    repeat match goal with
           | H : negb _ = true |- _ => apply negb_true_iff in H
           | H : Nat.ltb _ _ = true |- _ => apply Nat.ltb_lt in H
           end.
    repeat split; assumption.
  - apply firstn_sorted.
    assert (Hs : StronglySorted (holds by_count) (sort_by by_count counts)).
    { apply sort_by_sorted.
      - intros x y. unfold by_count.
        destruct (Nat.leb (snd y) (snd x)) eqn:E; [left; reflexivity |].
        right. apply Nat.leb_gt in E. apply Nat.leb_le. lia.
      - intros x y z H1 H2. unfold by_count in *.
        apply Nat.leb_le in H1, H2. apply Nat.leb_le. lia. }
    assert (Hval : forall p, In p (sort_by by_count counts) ->
                             snd p = occurrences (fst p) tokens).
    { intros [k n] Hp. cbn [fst snd].
      assert (Hk : keep k = true).
      { apply (Hkeep k). apply (in_map fst) in Hp. exact Hp. }
      apply (Permutation_in _ Hperm) in Hp.
      rewrite <- (count_of_in k n counts (Hnd (NoDup_nil _)) Hp).
      rewrite Hcount. cbn [count_of]. unfold filtered.
      apply occurrences_filter. exact Hk. }
    clear Hnd' Hkeep Hperm.
    induction Hs as [| p l Hl IH Hp]; [constructor |].
    cbn [map]. constructor.
    + apply IH. intros q Hq. apply Hval. right. exact Hq.
    + rewrite Forall_forall in *. intros k Hk.
      apply in_map_iff in Hk. destruct Hk as [q [<- Hq]].
      unfold as_frequent.
      rewrite <- (Hval p (or_introl eq_refl)), <- (Hval q (or_intror Hq)).
      specialize (Hp q Hq). unfold holds, by_count in Hp.
      apply Nat.leb_le in Hp. exact Hp.
Qed.

End Keywords.

(** ** What the detectors recognise *)

Lemma ascii_lower_ascii (c p : char) :
  ascii_lower c = p -> is_ascii p = true -> is_ascii c = true.
Proof.
  unfold ascii_lower, is_ascii, in_range. intros H Hp.
  apply N.ltb_lt in Hp. apply N.ltb_lt.
  destruct ((65 <=? c) && (c <=? 90)) eqn:E; [| lia].
  apply andb_true_iff in E. destruct E as [_ E]. apply N.leb_le in E. lia.
Qed.

Lemma ascii_lower_letter (c p : char) :
  ascii_lower c = p -> letter p = true ->
  in_range 65 90 c = true \/ in_range 97 122 c = true.
Proof.
  unfold ascii_lower, letter. intros H Hp.
  destruct (in_range 65 90 c) eqn:E; [left; reflexivity |].
  right. subst p. exact Hp.
Qed.

Lemma last_char_lower (mid : str) :
  forall (prev : option char) (q : char),
  mid <> [] ->
  last_char None (map ascii_lower mid) = Some q ->
  exists c, last_char prev mid = Some c /\ ascii_lower c = q.
Proof.
  induction mid as [| c mid IH]; intros prev q Hne H; [congruence |].
  destruct mid as [| c' mid'].
  - cbn in H. injection H as <-. exists c. split; reflexivity.
  - apply (IH (Some c) q); [discriminate |].
    cbn [map last_char fold_left] in *. exact H.
Qed.

Section DetectorFacts.
Context {U : Unicode}.

Lemma letter_isword (c p : char) :
  ascii_lower c = p -> letter p = true -> isword c = true.
Proof.
  intros H Hp.
  assert (Ha : is_ascii c = true).
  { apply (ascii_lower_ascii c p H).
    unfold letter, in_range in Hp. apply andb_true_iff in Hp.
    destruct Hp as [_ Hp]. apply N.leb_le in Hp.
    unfold is_ascii. apply N.ltb_lt. lia. }
  unfold isword, isalnum. rewrite Ha.
  destruct (ascii_lower_letter c p H Hp) as [E | E]; rewrite E;
    rewrite ?orb_true_r; reflexivity.
Qed.

Lemma m_cat_in (ic : bool) (a b : regex) (st st1 st2 : cursor) :
  In st1 (m ic a st) -> In st2 (m ic b st1) -> In st2 (m ic (Cat a b) st).
Proof.
  intros H1 H2. cbn [m]. apply in_flat_map. exists st1. split; assumption.
Qed.

Lemma m_alts_in (ic : bool) (rs : list regex) (r : regex) (st st' : cursor) :
  In r rs -> In st' (m ic r st) -> In st' (m ic (alts rs) st).
Proof.
  induction rs as [| r1 rs IH]; intros Hin Hm; [destruct Hin |].
  destruct rs as [| r2 rs].
  - destruct Hin as [<- | []]. exact Hm.
  - change (alts (r1 :: r2 :: rs)) with (Alt r1 (alts (r2 :: rs))).
    cbn [m]. apply in_or_app.
    destruct Hin as [<- | Hin]; [left; exact Hm | right; apply IH; assumption].
Qed.

Lemma m_opt_skip (ic : bool) (a : regex) (st : cursor) : In st (m ic (Opt a) st).
Proof. cbn [m]. apply in_or_app. right. left. reflexivity. Qed.

(** A phrase of a pattern matches its own letters in any case. *)
Lemma m_lit_any_case (mid : str) :
  forall (word : str) (prev : option char) (post : str),
  map ascii_lower mid = word ->
  forallb plain word = true ->
  In (last_char prev mid, post) (m true (lit word) (prev, mid ++ post)).
Proof.
  induction mid as [| c mid IH]; intros word prev post Hw Hplain.
  - cbn [map] in Hw. subst word. left. reflexivity.
  - cbn [map] in Hw. subst word.
    cbn [forallb] in Hplain. apply andb_true_iff in Hplain.
    destruct Hplain as [Hp Hplain].
    change (lit (ascii_lower c :: map ascii_lower mid))
      with (Cat (Chr (ascii_lower c)) (lit (map ascii_lower mid))).
    apply (m_cat_in true _ _ _ (Some c, mid ++ post)).
    + cbn [m]. unfold step_if. cbn [snd app].
      unfold plain in Hp. apply andb_true_iff in Hp. destruct Hp as [Hp1 Hp2].
      apply N.eqb_eq in Hp2.
      unfold ignorecase_eqb.
      rewrite Hp1, (ascii_lower_ascii c _ eq_refl Hp1). cbn [andb].
      rewrite Hp2, N.eqb_refl. left. reflexivity.
    + apply (IH _ (Some c) post eq_refl Hplain).
Qed.

Lemma words_in (ws : list string) (word : str) :
  In word (map txt ws) -> In (lit word) (map (fun w => lit (txt w)) ws).
Proof.
  intros H. apply in_map_iff in H. destruct H as [w [<- Hw]].
  apply in_map_iff. exists w. split; [reflexivity | exact Hw].
Qed.

(** A match between two word boundaries is found at its place. *)
Lemma delimited_found (r : regex) (pre mid post : str) (c z : char) :
  (exists mid', mid = c :: mid') -> isword c = true ->
  last_char (last_char None pre) mid = Some z -> isword z = true ->
  word_before pre = false ->
  word_after post = false ->
  In (Some z, post) (m true r (last_char None pre, mid ++ post)) ->
  search true (seq [Bnd; r; Bnd]) (pre ++ mid ++ post) = true.
Proof.
  intros [mid' ->] Hc Hz Hzw Hpre Hpost Hin.
  unfold search. apply search_from_app.
  apply (in_not_nil (Some z, post)).
  unfold seq. cbn [fold_right].
  apply (m_cat_in true _ _ _ (last_char None pre, (c :: mid') ++ post)).
  { cbn [m]. unfold at_boundary. cbn [fst snd app].
    fold (word_before pre). rewrite Hpre, Hc. left. reflexivity. }
  apply (m_cat_in true _ _ _ (Some z, post)); [exact Hin |].
  apply (m_cat_in true _ _ _ (Some z, post)); [| left; reflexivity].
  cbn [m]. unfold at_boundary. cbn [fst snd].
  fold (word_after post). rewrite Hpost, Hzw. left. reflexivity.
Qed.

(** The ends of a text that is a lettered phrase up to the case. *)
Lemma lettered_ends (phrase mid : str) (prev : option char) :
  map ascii_lower mid = phrase -> lettered phrase = true ->
  exists c mid' z,
    mid = c :: mid' /\ isword c = true
    /\ last_char prev mid = Some z /\ isword z = true.
Proof.
  intros Hm Hl. unfold lettered in Hl.
  destruct phrase as [| p phrase']; [discriminate Hl |].
  destruct (last_char None (p :: phrase')) as [q |] eqn:Eq; [| discriminate Hl].
  apply andb_true_iff in Hl. destruct Hl as [Hp Hq].
  destruct mid as [| c mid']; [discriminate Hm |].
  rewrite <- Hm in Eq.
  destruct (last_char_lower (c :: mid') prev q) as [z [Hz Hzq]];
    [discriminate | exact Eq |].
  exists c, mid', z.
  split; [reflexivity |].
  split; [apply (letter_isword c p); [injection Hm; auto | exact Hp] |].
  split; [exact Hz | apply (letter_isword z q Hzq Hq)].
Qed.

Lemma analyze_has_role (text : str) :
  has_role (checks (analyze_prompt text)) = search true ROLE_PATTERN text.
Proof.
  unfold analyze_prompt.
  cbv beta iota zeta delta [checks has_role].
  rewrite or_empty_id. reflexivity.
Qed.

Lemma analyze_has_task (text : str) :
  has_task (checks (analyze_prompt text)) = search true TASK_PATTERN text.
Proof.
  unfold analyze_prompt.
  cbv beta iota zeta delta [checks has_task].
  rewrite or_empty_id. reflexivity.
Qed.

(** X9.  A text that holds one of the ten constraint words in any case of
    its letters, inside a longer word too, has [has_constraints] true. *)
Theorem constraint_word_has_constraints (pre mid post word : str) :
  In word CONSTRAINT_WORDS ->
  map ascii_lower mid = word ->
  has_constraints (checks (analyze_prompt (pre ++ mid ++ post))) = true.
Proof.
  intros Hw Hm.
  rewrite analyze_has_constraints. unfold _has_constraints.
  destruct (search false NUMERAL_PATTERN (pre ++ mid ++ post)); [reflexivity |].
  unfold search. apply search_from_app.
  apply (in_not_nil (last_char (last_char None pre) mid, post)).
  assert (Hplain : forallb plain word = true).
  { vm_compute in Hw.
    repeat (destruct Hw as [Hw | Hw]; [subst word; reflexivity |]).
    destruct Hw. }
  pose proof (m_lit_any_case mid word (last_char None pre) post Hm Hplain) as Hlit.
  unfold CONSTRAINT_PATTERN.
  destruct Hw as [Hw | Hw].
  - apply (m_alts_in true _ (Cat (phrase "constraint") (Opt (phrase "s"))));
      [left; reflexivity |].
    apply (m_cat_in true _ _ _ (last_char (last_char None pre) mid, post));
      [| apply m_opt_skip].
    unfold phrase. rewrite Hw. exact Hlit.
  - apply (m_alts_in true _ (lit word)); [| exact Hlit].
    right.
    repeat (destruct Hw as [Hw | Hw];
            [rewrite <- Hw; repeat (first [left; reflexivity | right]) |]).
    destruct Hw.
Qed.

(** X10.  A text that holds "you are" or "act as" in any case of the
    letters, with no letter, digit or underscore right before or right
    after the phrase, has [has_role] true. *)
Theorem role_phrase_has_role (pre mid post phrase : str) :
  In phrase ROLE_PHRASES ->
  map ascii_lower mid = phrase ->
  word_before pre = false ->
  word_after post = false ->
  has_role (checks (analyze_prompt (pre ++ mid ++ post))) = true.
Proof.
  intros Hp Hm Hpre Hpost.
  rewrite analyze_has_role.
  assert (Hfacts : forallb plain phrase = true /\ lettered phrase = true).
  { vm_compute in Hp.
    repeat (destruct Hp as [Hp | Hp]; [subst phrase; split; reflexivity |]).
    destruct Hp. }
  destruct Hfacts as [Hplain Hlet].
  destruct (lettered_ends phrase mid (last_char None pre) Hm Hlet)
    as [c [mid' [z [Hmid [Hc [Hz Hzw]]]]]].
  unfold ROLE_PATTERN.
  apply (delimited_found _ pre mid post c z);
    [exists mid'; exact Hmid | exact Hc | exact Hz | exact Hzw
    | exact Hpre | exact Hpost |].
  rewrite <- Hz. unfold words.
  apply (m_alts_in true _ (lit phrase)).
  - apply words_in. exact Hp.
  - apply m_lit_any_case; assumption.
Qed.

(** X11.  A text that begins, after any whitespace, with one of the 17
    task verbs in any case of the letters, the verb followed by no letter,
    digit or underscore, has [has_task] true. *)
Theorem leading_verb_has_task (spaces mid post verb : str) :
  In verb TASK_VERBS ->
  forallb isspace spaces = true ->
  map ascii_lower mid = verb ->
  word_after post = false ->
  has_task (checks (analyze_prompt (spaces ++ mid ++ post))) = true.
Proof.
  intros Hv Hs Hm Hpost.
  rewrite analyze_has_task.
  assert (Hfacts : forallb plain verb = true /\ lettered verb = true).
  { vm_compute in Hv.
    repeat (destruct Hv as [Hv | Hv]; [subst verb; split; reflexivity |]).
    destruct Hv. }
  destruct Hfacts as [Hplain Hlet].
  destruct (lettered_ends verb mid (last_char None spaces) Hm Hlet)
    as [c [mid' [z [Hmid [Hc [Hz Hzw]]]]]].
  unfold search. rewrite search_from_eq.
  assert (Hin : In (Some z, post)
                  (m true TASK_PATTERN (None, spaces ++ mid ++ post))).
  { unfold TASK_PATTERN, seq. cbn [fold_right].
    apply (m_cat_in true _ _ _ (None, spaces ++ mid ++ post));
      [left; reflexivity |].
    apply (m_cat_in true _ _ _ (last_char None spaces, mid ++ post)).
    { cbn [m fst snd]. apply reps_run; [exact Hs | lia]. }
    apply (m_cat_in true _ _ _ (Some z, post)).
    { rewrite <- Hz. unfold words.
      apply (m_alts_in true _ (lit verb)).
      - apply words_in. exact Hv.
      - apply m_lit_any_case; assumption. }
    apply (m_cat_in true _ _ _ (Some z, post)); [| left; reflexivity].
    cbn [m]. unfold at_boundary. cbn [fst snd].
    fold (word_after post). rewrite Hpost, Hzw. left. reflexivity. }
  match goal with |- context [m true TASK_PATTERN ?st] =>
    destruct (m true TASK_PATTERN st) eqn:E end;
    [| reflexivity].
  exfalso. refine (in_not_nil _ _ Hin _). exact E.
Qed.

End DetectorFacts.

Lemma constraint_word_has_constraints_witness :
  has_constraints (checks (analyze_prompt (txt "Dijon " ++ txt "MUST" ++ txt "ard")))
  = true.
Proof.
  apply (constraint_word_has_constraints (txt "Dijon ") (txt "MUST") (txt "ard")
           (txt "must")).
  - vm_compute. auto 20.
  - reflexivity.
Defined.

Lemma role_phrase_has_role_witness :
  has_role (checks (analyze_prompt (txt "Today, " ++ txt "You Are" ++ txt " a teacher")))
  = true.
Proof.
  apply (role_phrase_has_role (txt "Today, ") (txt "You Are") (txt " a teacher")
           (txt "you are")).
  - vm_compute. auto.
  - reflexivity.
  - vm_compute. reflexivity.
  - vm_compute. reflexivity.
Defined.

Lemma leading_verb_has_task_witness :
  has_task (checks (analyze_prompt (txt "  " ++ txt "Draft" ++ txt " a memo")))
  = true.
Proof.
  apply (leading_verb_has_task (txt "  ") (txt "Draft") (txt " a memo")
           (txt "draft")).
  - vm_compute. auto 20.
  - vm_compute. reflexivity.
  - reflexivity.
  - vm_compute. reflexivity.
Defined.

(** ** The download: [to_txt] *)

Lemma split64 (c : N) : c = 64 * (c / 64) + c mod 64 /\ c mod 64 < 64.
Proof.
  split; [apply N.div_mod'; discriminate | apply N.mod_lt; discriminate].
Qed.

Ltac nat_tests :=
  repeat match goal with
         | |- context [?a <? ?b] =>
             first [ replace (a <? b) with true by (symmetry; apply N.ltb_lt; lia)
                   | replace (a <? b) with false by (symmetry; apply N.ltb_ge; lia) ]
         | |- context [?a <=? ?b] =>
             first [ replace (a <=? b) with true by (symmetry; apply N.leb_le; lia)
                   | replace (a <=? b) with false by (symmetry; apply N.leb_gt; lia) ]
         end.

(** Decoding reads back the character that [utf8_char] wrote. *)
Lemma utf8_decode_char (c : char) (rest : bytes) :
  encodable c = true ->
  utf8_decode (utf8_char c ++ rest) = option_map (cons c) (utf8_decode rest).
Proof.
  unfold encodable, in_range. intros H.
  apply andb_true_iff in H. destruct H as [Hmax Hsur].
  apply N.ltb_lt in Hmax. apply negb_true_iff in Hsur.
  destruct (split64 c) as [Ec Hc].
  destruct (split64 (c / 64)) as [Ex Hx].
  destruct (split64 (c / 64 / 64)) as [Ey Hy].
  set (x := c / 64) in *. set (y := x / 64) in *. set (z := y / 64) in *.
  set (r0 := c mod 64) in *. set (r1 := x mod 64) in *. set (r2 := y mod 64) in *.
  unfold utf8_char. fold x. fold y. fold z. fold r0. fold r1. fold r2.
  destruct (c <? 128) eqn:E1.
  { cbn [app utf8_decode]. rewrite E1. reflexivity. }
  apply N.ltb_ge in E1.
  destruct (c <? 2048) eqn:E2.
  { apply N.ltb_lt in E2.
    cbn [app utf8_decode]. unfold continuation, in_range.
    replace ((192 + x - 192) * 64 + (128 + r0 - 128)) with c by lia.
    nat_tests. reflexivity. }
  apply N.ltb_ge in E2.
  destruct (c <? 65536) eqn:E3.
  { apply N.ltb_lt in E3.
    cbn [app utf8_decode]. unfold continuation, in_range.
    replace (((224 + y - 224) * 64 + (128 + r1 - 128)) * 64 + (128 + r0 - 128))
      with c by lia.
    rewrite Hsur.
    nat_tests. reflexivity. }
  apply N.ltb_ge in E3.
  cbn [app utf8_decode]. unfold continuation, in_range.
  replace ((((240 + z - 240) * 64 + (128 + r2 - 128)) * 64 + (128 + r1 - 128)) * 64
           + (128 + r0 - 128)) with c by lia.
  nat_tests. reflexivity.
Qed.

Lemma utf8_char_length (c : char) :
  (1 <= length (utf8_char c) <= 4)%nat.
Proof.
  unfold utf8_char.
  destruct (c <? 128), (c <? 2048), (c <? 65536); cbn [length]; lia.
Qed.

Lemma utf8_char_byte (c : char) (b : N) :
  encodable c = true -> In b (utf8_char c) -> b < 256.
Proof.
  unfold encodable. intros H. apply andb_true_iff in H. destruct H as [Hmax _].
  apply N.ltb_lt in Hmax.
  destruct (split64 c) as [Ec Hc].
  destruct (split64 (c / 64)) as [Ex Hx].
  destruct (split64 (c / 64 / 64)) as [Ey Hy].
  set (x := c / 64) in *. set (y := x / 64) in *. set (z := y / 64) in *.
  set (r0 := c mod 64) in *. set (r1 := x mod 64) in *. set (r2 := y mod 64) in *.
  unfold utf8_char. fold x. fold y. fold z. fold r0. fold r1. fold r2.
  destruct (c <? 128) eqn:E1; [apply N.ltb_lt in E1 | apply N.ltb_ge in E1].
  { intros [H | []]. lia. }
  destruct (c <? 2048) eqn:E2; [apply N.ltb_lt in E2 | apply N.ltb_ge in E2].
  { intros [H | [H | []]]; lia. }
  destruct (c <? 65536) eqn:E3; [apply N.ltb_lt in E3 | apply N.ltb_ge in E3].
  { intros [H | [H | [H | []]]]; lia. }
  intros [H | [H | [H | [H | []]]]]; lia.
Qed.

Lemma utf8_encode_spec (s : str) :
  forall (position : nat) (b : bytes),
  utf8_encode position s = Encoded b ->
  utf8_decode b = Some s
  /\ (length s <= length b <= 4 * length s)%nat
  /\ Forall (fun byte => byte < 256) b
  /\ forallb encodable s = true.
Proof.
  induction s as [| c s IH]; intros position b H.
  - cbn [utf8_encode] in H. injection H as <-.
    repeat split; try (cbn; lia). constructor.
  - cbn [utf8_encode] in H.
    destruct (encodable c) eqn:Ec; [| discriminate H].
    destruct (utf8_encode (S position) s) as [b' | p] eqn:E; [| discriminate H].
    injection H as <-.
    destruct (IH _ _ E) as [Hd [Hl [Hb He]]].
    split; [| split; [| split]].
    + rewrite (utf8_decode_char c b' Ec), Hd. reflexivity.
    + pose proof (utf8_char_length c). rewrite length_app. cbn [length]. lia.
    + apply Forall_app. split; [| exact Hb].
      apply Forall_forall. intros byte. apply utf8_char_byte. exact Ec.
    + cbn [forallb]. rewrite Ec, He. reflexivity.
Qed.

Lemma utf8_encode_error (s : str) :
  forall position p : nat,
  utf8_encode position s = UnicodeEncodeError p ->
  (position <= p)%nat
  /\ exists c, nth_error s (p - position) = Some c /\ encodable c = false
               /\ forallb encodable (firstn (p - position) s) = true.
Proof.
  induction s as [| c s IH]; intros position p H; [discriminate H |].
  cbn [utf8_encode] in H.
  destruct (encodable c) eqn:Ec.
  - destruct (utf8_encode (S position) s) as [b' | p'] eqn:E; [discriminate H |].
    injection H as <-.
    destruct (IH _ _ E) as [Hp [c' [Hn [Hc' Hf]]]].
    split; [lia |].
    exists c'. replace (p' - position)%nat with (S (p' - S position)) by lia.
    cbn [nth_error firstn forallb]. rewrite Ec, Hf. auto.
  - injection H as <-. split; [lia |].
    exists c. rewrite Nat.sub_diag. cbn. auto.
Qed.

Lemma utf8_encode_ascii (s : str) :
  forall position : nat,
  forallb is_ascii s = true -> utf8_encode position s = Encoded s.
Proof.
  induction s as [| c s IH]; intros position H; [reflexivity |].
  cbn [forallb] in H. apply andb_true_iff in H. destruct H as [Hc Hs].
  cbn [utf8_encode]. rewrite (IH _ Hs).
  unfold is_ascii in Hc. pose proof Hc as Hlt. apply N.ltb_lt in Hlt.
  unfold encodable, in_range, utf8_char. rewrite Hc.
  nat_tests. reflexivity.
Qed.

(** X12.  When [to_txt] returns bytes, strict UTF-8 decoding of them gives
    the text back, so two texts with the same download are the same text;
    there are between one and four bytes per character, each below 256,
    and ASCII text is written byte for character.  It raises
    [UnicodeEncodeError] exactly for a text that holds a surrogate (or no
    character at all), at the position of the first one. *)
Theorem to_txt_round_trip (rewrite : str) :
  match to_txt rewrite with
  | Encoded b =>
      utf8_decode b = Some rewrite
      /\ (forall other, to_txt other = Encoded b -> other = rewrite)
      /\ (length rewrite <= length b <= 4 * length rewrite)%nat
      /\ Forall (fun byte => byte < 256) b
      /\ forallb encodable rewrite = true
      /\ (forallb is_ascii rewrite = true -> b = rewrite)
  | UnicodeEncodeError p =>
      exists c, nth_error rewrite p = Some c /\ encodable c = false
                /\ forallb encodable (firstn p rewrite) = true
  end.
Proof.
  unfold to_txt. cbv zeta.
  assert (Hor : forall t : str, or_empty t = t) by (intros []; reflexivity).
  rewrite Hor.
  destruct (utf8_encode 0 rewrite) as [b | p] eqn:E.
  - destruct (utf8_encode_spec _ _ _ E) as [Hd [Hl [Hb He]]].
    split; [exact Hd |].
    split.
    { intros other Ho. rewrite Hor in Ho.
      destruct (utf8_encode_spec _ _ _ Ho) as [Hd' _]. congruence. }
    split; [exact Hl |]. split; [exact Hb |]. split; [exact He |].
    intros Ha. rewrite (utf8_encode_ascii _ 0 Ha) in E. congruence.
  - destruct (utf8_encode_error _ _ _ E) as [_ [c H]].
    rewrite Nat.sub_0_r in H. exists c. exact H.
Qed.

(** ** The remote service and the route *)

(** X13.  [_safe_trim] returns the first 1200 characters of its text: at
    most 1200 characters, the text itself when it is no longer, and the
    same again when trimmed twice; after the trimming of the route, which
    keeps 2000 characters, the remote service is still sent the first 1200
    characters of what was typed. *)
Theorem safe_trim_prefix (raw_text : str) :
  llm._safe_trim raw_text = firstn 1200 raw_text
  /\ (length (llm._safe_trim raw_text) <= 1200)%nat
  /\ ((length raw_text <= 1200)%nat -> llm._safe_trim raw_text = raw_text)
  /\ llm._safe_trim (llm._safe_trim raw_text) = llm._safe_trim raw_text
  /\ llm._safe_trim (fst (app.trimmed raw_text)) = firstn 1200 raw_text.
Proof.
  assert (H : forall t : str, llm._safe_trim t = firstn 1200 t).
  { intros t. unfold llm._safe_trim, llm.MAX_INPUT_CHARS.
    destruct t as [| c t]; [reflexivity |].
    cbn [truthy andb or_empty].
    destruct (Nat.ltb 1200 (length (c :: t))) eqn:E; [reflexivity |].
    apply Nat.ltb_ge in E. symmetry. apply firstn_all2. exact E. }
  split; [apply H |].
  split; [rewrite H; apply firstn_le_length |].
  split; [intros Hl; rewrite H; apply firstn_all2; exact Hl |].
  split.
  - rewrite !H. rewrite firstn_firstn. reflexivity.
  - rewrite H. unfold app.trimmed, app.MAX_INPUT_CHARS.
    destruct (Nat.ltb 2000 (length raw_text)); cbn [fst]; [| reflexivity].
    rewrite firstn_firstn. reflexivity.
Qed.

Section RouteFacts.
Context {U : Unicode}.
Variable Candidate : Type.
Variable _model_validate : Candidate -> option Analysis.
Variable llm_analyze : option (str -> attempt (option Candidate)).
Variable llm_rewrite : option (Analysis -> str -> attempt (option str)).



End RouteFacts.

(** ** The analysis and the case of the letters *)

Lemma ascii_lower_cases (c : char) :
  (in_range 65 90 c = true /\ ascii_lower c = c + 32)
  \/ (in_range 65 90 c = false /\ ascii_lower c = c).
Proof.
  unfold ascii_lower. destruct (in_range 65 90 c); auto.
Qed.

Ltac range_facts :=
  unfold in_range, is_ascii in *;
  repeat match goal with
         | H : _ && _ = true |- _ => apply andb_true_iff in H; destruct H
         | H : _ && _ = false |- _ => apply andb_false_iff in H; destruct H
         | H : (_ <=? _) = true |- _ => apply N.leb_le in H
         | H : (_ <=? _) = false |- _ => apply N.leb_gt in H
         | H : (_ <? _) = true |- _ => apply N.ltb_lt in H
         | H : (_ <? _) = false |- _ => apply N.ltb_ge in H
         end.

Lemma in_range_shift (lo hi c : char) :
  in_range 65 90 c = true ->
  hi < 65 \/ (90 < lo /\ hi < 97) \/ 122 < lo ->
  in_range lo hi (c + 32) = in_range lo hi c.
Proof.
  intros Hc Hr. unfold in_range in *.
  apply andb_true_iff in Hc. destruct Hc as [H1 H2].
  apply N.leb_le in H1, H2.
  destruct ((lo <=? c + 32) && (c + 32 <=? hi)) eqn:E1,
           ((lo <=? c) && (c <=? hi)) eqn:E2; try reflexivity;
    exfalso; range_facts; lia.
Qed.

Lemma is_ascii_lower (c : char) : is_ascii (ascii_lower c) = is_ascii c.
Proof.
  destruct (ascii_lower_cases c) as [[H ->] | [_ ->]]; [| reflexivity].
  unfold is_ascii, in_range in *. apply andb_true_iff in H. destruct H as [H1 H2].
  apply N.leb_le in H1, H2.
  replace (c + 32 <? 128) with true by (symmetry; apply N.ltb_lt; lia).
  symmetry. apply N.ltb_lt. lia.
Qed.

Lemma ascii_lower_twice (c : char) : ascii_lower (ascii_lower c) = ascii_lower c.
Proof.
  destruct (ascii_lower_cases c) as [[H ->] | [H ->]].
  - unfold ascii_lower.
    replace (in_range 65 90 (c + 32)) with false; [reflexivity |].
    symmetry. unfold in_range in *. apply andb_true_iff in H.
    destruct H as [H1 H2]. apply N.leb_le in H1, H2.
    apply andb_false_iff. right. apply N.leb_gt. lia.
  - unfold ascii_lower. rewrite H. reflexivity.
Qed.

Section CaseFacts.
Context {U : Unicode}.

Lemma isspace_lower (c : char) : isspace (ascii_lower c) = isspace c.
Proof.
  unfold isspace. rewrite is_ascii_lower.
  destruct (ascii_lower_cases c) as [[H ->] | [_ ->]]; [| reflexivity].
  rewrite !(in_range_shift _ _ c H) by lia.
  assert (is_ascii c = true) as ->; [| reflexivity].
  unfold is_ascii, in_range in *. apply andb_true_iff in H.
  destruct H as [_ H]. apply N.leb_le in H. apply N.ltb_lt. lia.
Qed.

Lemma isdecimal_lower (c : char) : isdecimal (ascii_lower c) = isdecimal c.
Proof.
  unfold isdecimal. rewrite is_ascii_lower.
  destruct (ascii_lower_cases c) as [[H ->] | [_ ->]]; [| reflexivity].
  rewrite !(in_range_shift _ _ c H) by lia.
  assert (is_ascii c = true) as ->; [| reflexivity].
  unfold is_ascii, in_range in *. apply andb_true_iff in H.
  destruct H as [_ H]. apply N.leb_le in H. apply N.ltb_lt. lia.
Qed.

Lemma isword_lower (c : char) : isword (ascii_lower c) = isword c.
Proof.
  unfold isword, isalnum. rewrite is_ascii_lower.
  destruct (ascii_lower_cases c) as [[H ->] | [_ ->]]; [| reflexivity].
  assert (Ha : is_ascii c = true).
  { unfold is_ascii, in_range in *. apply andb_true_iff in H.
    destruct H as [_ H]. apply N.leb_le in H. apply N.ltb_lt. lia. }
  rewrite Ha, H.
  assert (in_range 97 122 (c + 32) = true) as ->.
  { unfold in_range in *. apply andb_true_iff in H. destruct H as [H1 H2].
    apply N.leb_le in H1, H2.
    apply andb_true_iff. split; apply N.leb_le; lia. }
  rewrite !orb_true_r. reflexivity.
Qed.

Lemma ignorecase_lower (p c : char) :
  is_ascii p = true ->
  ignorecase_eqb p (ascii_lower c) = ignorecase_eqb p c.
Proof.
  intros Hp. unfold ignorecase_eqb.
  rewrite is_ascii_lower, Hp. cbn [andb].
  destruct (is_ascii c) eqn:Ec.
  - rewrite ascii_lower_twice. reflexivity.
  - destruct (ascii_lower_cases c) as [[H _] | [_ ->]]; [| reflexivity].
    exfalso. range_facts; lia.
Qed.

Lemma eqb_lower (p c : char) :
  in_range 65 90 p || in_range 97 122 p = false ->
  (p =? ascii_lower c) = (p =? c).
Proof.
  intros Hp. apply orb_false_iff in Hp. destruct Hp as [Hp1 Hp2].
  destruct (ascii_lower_cases c) as [[H ->] | [_ ->]]; [| reflexivity].
  destruct (p =? c + 32) eqn:E1, (p =? c) eqn:E2; try reflexivity;
    exfalso.
  - apply N.eqb_eq in E1. subst p. range_facts; lia.
  - apply N.eqb_eq in E2. subst p. rewrite H in Hp1. discriminate Hp1.
Qed.

Lemma step_if_lower (ok : char -> bool) (st : cursor) :
  (forall x, ok (ascii_lower x) = ok x) ->
  step_if ok (low_cursor st) = map low_cursor (step_if ok st).
Proof.
  intros Hok. destruct st as [prev [| c s]]; [reflexivity |].
  unfold step_if, low_cursor. cbn [fst snd map].
  rewrite Hok. destruct (ok c); reflexivity.
Qed.

Lemma reps_lower (p : char -> bool) (s : str) :
  (forall x, p (ascii_lower x) = p x) ->
  forall (n : nat) (prev : option char),
  reps p n (option_map ascii_lower prev) (map ascii_lower s)
  = map low_cursor (reps p n prev s).
Proof.
  intros Hp. induction s as [| c s IH]; intros n prev.
  - destruct n; reflexivity.
  - cbn [map reps]. rewrite Hp. destruct (p c).
    + rewrite map_app. rewrite <- IH. cbn [option_map].
      destruct n; reflexivity.
    + destruct n; reflexivity.
Qed.

Lemma at_boundary_lower (st : cursor) :
  at_boundary (low_cursor st) = at_boundary st.
Proof.
  destruct st as [[c |] [| d s]]; unfold at_boundary, low_cursor;
    cbn [fst snd option_map map]; rewrite ?isword_lower; reflexivity.
Qed.

(** A case-blind pattern matches the text with small letters where it
    matches the text, and ends where it ends there. *)
Lemma m_lower (ic : bool) (r : regex) :
  case_blind ic r ->
  forall st : cursor, m ic r (low_cursor st) = map low_cursor (m ic r st).
Proof.
  induction r as [| c | p | a IHa b IHb | a IHa b IHb | a IHa | n p | |];
    intros Hr st; cbn [case_blind] in Hr.
  - reflexivity.
  - cbn [m]. apply step_if_lower. intros x.
    destruct ic; [apply ignorecase_lower | apply eqb_lower]; exact Hr.
  - cbn [m]. apply step_if_lower. exact Hr.
  - destruct Hr as [Ha Hb]. cbn [m]. rewrite (IHa Ha).
    rewrite flat_map_concat_map, map_map, <- flat_map_concat_map.
    rewrite (flat_map_ext _ (fun s => map low_cursor (m ic b s)))
      by (intros s; apply IHb; exact Hb).
    rewrite !flat_map_concat_map, concat_map, map_map. reflexivity.
  - destruct Hr as [Ha Hb]. cbn [m]. rewrite (IHa Ha), (IHb Hb), map_app.
    reflexivity.
  - cbn [m]. rewrite (IHa Hr), map_app. reflexivity.
  - cbn [m]. destruct st as [prev s]. cbn [low_cursor fst snd].
    apply reps_lower. exact Hr.
  - cbn [m]. rewrite at_boundary_lower.
    destruct (at_boundary st); reflexivity.
  - cbn [m]. destruct st as [[c |] s]; reflexivity.
Qed.

Lemma search_lower (ic : bool) (r : regex) (s : str) :
  case_blind ic r ->
  forall prev : option char,
  search_from ic r (option_map ascii_lower prev) (map ascii_lower s)
  = search_from ic r prev s.
Proof.
  intros Hr. induction s as [| c s IH]; intros prev.
  - rewrite !search_from_eq.
    change (option_map ascii_lower prev, map ascii_lower [])
      with (low_cursor (prev, [])).
    rewrite (m_lower ic r Hr). cbn [map].
    unfold cursor, str, char in *.
    match goal with |- context [m ic r ?st] => destruct (m ic r st) end;
      reflexivity.
  - rewrite (search_from_eq ic r prev (c :: s)).
    rewrite (search_from_eq ic r _ (map ascii_lower (c :: s))).
    change (option_map ascii_lower prev, map ascii_lower (c :: s))
      with (low_cursor (prev, c :: s)).
    rewrite (m_lower ic r Hr).
    unfold cursor, str, char in *.
    match goal with |- context [m ic r ?st] => destruct (m ic r st) end;
      cbn [map]; [| reflexivity].
    apply (IH (Some c)).
Qed.

Lemma scan_lower (ic : bool) (r : regex) (s : str) :
  case_blind ic r ->
  forall (prev : option char) (skip : nat),
  scan ic r (option_map ascii_lower prev) (map ascii_lower s) skip
  = map low_piece (scan ic r prev s skip).
Proof.
  intros Hr. induction s as [| c s IH]; intros prev skip.
  - cbn [map scan].
    change (option_map ascii_lower prev, @nil char)
      with (low_cursor (prev, [])).
    rewrite (m_lower ic r Hr).
    unfold cursor, str, char in *.
    match goal with |- context [m ic r ?st] => destruct (m ic r st) end;
      destruct skip; reflexivity.
  - destruct skip as [| k].
    + cbn [map scan].
      change (option_map ascii_lower prev, ascii_lower c :: map ascii_lower s)
        with (low_cursor (prev, c :: s)).
      rewrite (m_lower ic r Hr), map_map.
      assert (Hc : forall st,
                 consumed (ascii_lower c :: map ascii_lower s) (low_cursor st)
                 = consumed (c :: s) st).
      { intros st. unfold consumed, low_cursor. cbn [snd length].
        rewrite !length_map. reflexivity. }
      rewrite (map_ext _ _ Hc).
      change (Some (ascii_lower c)) with (option_map ascii_lower (Some c)).
      rewrite !IH.
      unfold cursor, str, char in *.
      match goal with |- context [map low_piece (match ?l with _ => _ end)] =>
        destruct l as [| [| n] ends] end.
      * reflexivity.
      * destruct (find (fun n => negb (Nat.eqb n 0)) (0%nat :: ends)) as [n |].
        -- rewrite IH. cbn [map low_piece].
           rewrite <- firstn_map. reflexivity.
        -- reflexivity.
      * rewrite IH. cbn [map low_piece]. f_equal. f_equal.
        rewrite <- firstn_map. reflexivity.
    + cbn [map scan].
      change (Some (ascii_lower c)) with (option_map ascii_lower (Some c)).
      apply IH.
Qed.

Lemma lower_of_lower (text : str) :
  forallb is_ascii text = true -> lower (map ascii_lower text) = lower text.
Proof.
  intros Ha. unfold lower.
  assert (forallb is_ascii (map ascii_lower text) = true) as ->.
  { rewrite forallb_forall in *. intros x Hx.
    apply in_map_iff in Hx. destruct Hx as [c [<- Hc]].
    rewrite is_ascii_lower. apply Ha. exact Hc. }
  rewrite Ha, map_map. apply map_ext. apply ascii_lower_twice.
Qed.

Lemma search_small (ic : bool) (r : regex) (s : str) :
  case_blind ic r -> search ic r (map ascii_lower s) = search ic r s.
Proof. intros Hr. exact (search_lower ic r s Hr None). Qed.

Lemma findall_small (ic : bool) (r : regex) (s : str) :
  case_blind ic r ->
  findall ic r (map ascii_lower s) = map (map ascii_lower) (findall ic r s).
Proof.
  intros Hr. unfold findall.
  change (@None char) with (option_map ascii_lower None) at 1.
  rewrite (scan_lower ic r s Hr None 0).
  induction (scan ic r None s 0) as [| [c | x] l IH]; cbn [map flat_map app].
  - reflexivity.
  - exact IH.
  - rewrite IH. reflexivity.
Qed.

(** Decides [case_blind] for a pattern of the analysis. *)
Ltac blind :=
  repeat match goal with
         | |- _ /\ _ => split
         | |- True => exact I
         | |- forall x, isspace _ = _ => exact isspace_lower
         | |- forall x, isdecimal _ = _ => exact isdecimal_lower
         | |- forall x, any_char _ = _ => intros x; reflexivity
         | |- _ = _ => reflexivity
         end.

(** The patterns of the analysis are case-blind. *)
Lemma patterns_blind :
  case_blind true ROLE_PATTERN /\ case_blind true TASK_PATTERN
  /\ case_blind true INPUT_PATTERN /\ case_blind true CONSTRAINT_PATTERN
  /\ case_blind false NUMERAL_PATTERN /\ case_blind true FORMAT_PATTERN
  /\ case_blind true EXAMPLE_PATTERN /\ case_blind true STEPS_PATTERN
  /\ case_blind true SUCCESS_PATTERN /\ case_blind true DANGLING_PATTERN.
Proof.
  cbv [ROLE_PATTERN TASK_PATTERN INPUT_PATTERN CONSTRAINT_PATTERN
       NUMERAL_PATTERN FORMAT_PATTERN EXAMPLE_PATTERN STEPS_PATTERN
       SUCCESS_PATTERN DANGLING_PATTERN
       seq words alts phrase lit txt map fold_right list_ascii_of_string
       case_blind].
  blind.
Qed.

Lemma has_constraints_small (text : str) :
  _has_constraints (map ascii_lower text) = _has_constraints text.
Proof.
  destruct patterns_blind as (_ & _ & _ & Hc & Hn & _).
  unfold _has_constraints.
  rewrite (search_small false NUMERAL_PATTERN text Hn).
  rewrite (search_small true CONSTRAINT_PATTERN text Hc).
  reflexivity.
Qed.

Lemma count_dangling_small (text : str) :
  _count_dangling_pronouns (map ascii_lower text)
  = _count_dangling_pronouns text.
Proof.
  destruct patterns_blind as (_ & _ & _ & _ & _ & _ & _ & _ & _ & Hd).
  unfold _count_dangling_pronouns.
  rewrite (findall_small true DANGLING_PATTERN text Hd), length_map.
  reflexivity.
Qed.

Lemma find_terms_small (text : str) (term_list : list str) :
  forallb is_ascii text = true ->
  _find_terms (map ascii_lower text) term_list = _find_terms text term_list.
Proof.
  intros Ha. unfold _find_terms, _find_terms_in.
  rewrite (lower_of_lower text Ha). reflexivity.
Qed.

Lemma analyze_small (text : str) :
  forallb is_ascii text = true ->
  analyze_prompt (map ascii_lower text) = analyze_prompt text.
Proof.
  intros Ha.
  destruct patterns_blind as (Hr & Ht & Hi & _ & _ & Hf & He & Hs & Hk & _).
  unfold analyze_prompt. rewrite !or_empty_id.
  rewrite (search_small true ROLE_PATTERN text Hr).
  rewrite (search_small true TASK_PATTERN text Ht).
  rewrite (search_small true INPUT_PATTERN text Hi).
  rewrite (search_small true FORMAT_PATTERN text Hf).
  rewrite (search_small true EXAMPLE_PATTERN text He).
  rewrite (search_small true STEPS_PATTERN text Hs).
  rewrite (search_small true SUCCESS_PATTERN text Hk).
  rewrite (has_constraints_small text).
  rewrite (count_dangling_small text).
  rewrite !(find_terms_small text _ Ha).
  reflexivity.
Qed.

End CaseFacts.

(** X15.  ([analyze_prompt], [_find_terms], [_has_constraints],
    [_count_dangling_pronouns].)  The analysis does not see the case of
    ASCII letters: two ASCII texts that [str.lower] makes equal have the
    same analysis: the same checks, flags, score and notes. *)
Theorem analysis_ignores_letter_case {U : Unicode} (a b : str) :
  forallb is_ascii a = true ->
  forallb is_ascii b = true ->
  lower a = lower b ->
  analyze_prompt a = analyze_prompt b.
Proof.
  intros Ha Hb Hab.
  rewrite <- (analyze_small a Ha), <- (analyze_small b Hb).
  unfold lower in Hab. rewrite Ha, Hb in Hab. rewrite Hab. reflexivity.
Qed.

Lemma analysis_ignores_letter_case_witness :
  analyze_prompt (U := plain_symbols) (txt "You Are a Teacher. It IS 5 pm")
  = analyze_prompt (U := plain_symbols) (txt "you are a teacher. it is 5 PM").
Proof.
  apply (analysis_ignores_letter_case (U := plain_symbols)); reflexivity.
Defined.

(** ** The rewritten prompt under the analysis *)

Section RewriteHead.
Context {U : Unicode}.

Lemma render_app (repl : str) (a b : list piece) :
  render repl (a ++ b) = render repl a ++ render repl b.
Proof. unfold render. apply flat_map_app. Qed.

Lemma render_gaps (repl p : str) : render repl (map Gap p) = p.
Proof.
  unfold render. induction p as [| c p IH]; [reflexivity |].
  cbn [map flat_map app]. rewrite IH. reflexivity.
Qed.

(** Where no match starts inside [p], whatever follows, the scan keeps
    [p] character by character. *)
Lemma scan_dead (ic : bool) (r : regex) (p t : str) :
  forall prev : option char,
  (forall i, (i < length p)%nat ->
     m ic r (last_char prev (firstn i p), skipn i p ++ t) = []) ->
  scan ic r prev (p ++ t) 0 = map Gap p ++ scan ic r (last_char prev p) t 0.
Proof.
  induction p as [| c p IH]; intros prev H; [reflexivity |].
  cbn [app map]. rewrite scan_gap.
  - f_equal. apply (IH (Some c)). intros i Hi.
    apply (H (S i)). cbn [length]. lia.
  - apply (H 0%nat). cbn [length]. lia.
Qed.

Lemma sub_dead (ic : bool) (r : regex) (repl p t : str) :
  (forall i, (i < length p)%nat ->
     m ic r (last_char None (firstn i p), skipn i p ++ t) = []) ->
  exists t', sub ic r repl (p ++ t) = p ++ t'.
Proof.
  intros H. unfold sub. rewrite (scan_dead ic r p t None H).
  rewrite render_app, render_gaps. eexists. reflexivity.
Qed.

(** What [re.sub] makes of a text begins with the first character of the
    text or with the replacement. *)
Lemma render_scan_head (ic : bool) (r : regex) (prev : option char)
  (c c0 : char) (t repl : str) :
  exists c' t',
    render (c0 :: repl) (scan ic r prev (c :: t) 0) = c' :: t'
    /\ (c' = c \/ c' = c0).
Proof.
  cbn [scan]. unfold cursor, str, char in *.
  match goal with
  | |- context [match ?l with [] => _ | _ :: _ => _ end] =>
      destruct l as [| [| k] ends]
  end; unfold render; cbn [flat_map app]; eexists; eexists;
    (split; [reflexivity |]); auto.
Qed.

Lemma sub_head (ic : bool) (r : regex) (c0 : char) (repl p : str)
  (c : char) (t : str) :
  (forall i, (i < length p)%nat ->
     m ic r (last_char None (firstn i p), skipn i p ++ c :: t) = []) ->
  exists c' t',
    sub ic r (c0 :: repl) (p ++ c :: t) = p ++ c' :: t' /\ (c' = c \/ c' = c0).
Proof.
  intros H. unfold sub. rewrite (scan_dead ic r p (c :: t) None H).
  rewrite render_app, render_gaps.
  destruct (render_scan_head ic r (last_char None p) c c0 t repl)
    as [c' [t' [E Hc]]].
  exists c', t'. rewrite E. auto.
Qed.

Lemma lstrip_app (a b : str) :
  lstrip (a ++ b)
  = match lstrip a with [] => lstrip b | _ :: _ => lstrip a ++ b end.
Proof.
  induction a as [| c a IH]; [reflexivity |].
  cbn [app lstrip]. destruct (isspace c); [exact IH | reflexivity].
Qed.

Lemma rstrip_app (p x : str) :
  rstrip p = p -> rstrip (p ++ x) = p ++ rstrip x.
Proof.
  unfold rstrip. intros H. rewrite rev_app_distr, lstrip_app.
  destruct (lstrip (rev x)) as [| c y].
  - rewrite H. cbn [rev]. rewrite app_nil_r. reflexivity.
  - rewrite rev_app_distr, rev_involutive. reflexivity.
Qed.

Lemma strip_app (p x : str) :
  strip p = p -> p <> [] -> strip (p ++ x) = p ++ rstrip x.
Proof.
  intros H Hp. unfold strip in *.
  assert (Hl : lstrip p = p).
  { destruct (lstrip_suffix p) as [dropped Hd].
    destruct (rstrip_prefix (lstrip p)) as [after Ha].
    rewrite H in Ha. rewrite Ha in Hd.
    assert (Hlen : length p = length (dropped ++ p ++ after))
      by (rewrite <- Hd; reflexivity).
    rewrite !length_app in Hlen.
    destruct after; [| cbn [length] in Hlen; lia].
    rewrite app_nil_r in Ha. exact Ha. }
  rewrite lstrip_app, Hl.
  destruct p as [| c p]; [contradiction |].
  rewrite Hl in H. apply rstrip_app. exact H.
Qed.

(** Solves the side condition of [scan_dead] for a text that is known
    far enough. *)
Ltac dead :=
  let i := fresh "i" in
  let Hi := fresh "Hi" in
  intros i Hi;
  match type of Hi with
  | (_ < ?n)%nat => let k := eval vm_compute in n in change n with k in Hi
  end;
  repeat (destruct i as [| i];
          [vm_compute; reflexivity | apply (proj2 (Nat.succ_lt_mono _ _)) in Hi]);
  exfalso; lia.

Lemma terms_keep_head (p : str) (terms : list str) :
  Forall (fun w => forall t i, (i < length p)%nat ->
            m true (lit w) (last_char None (firstn i p), skipn i p ++ t) = [])
         terms ->
  forall t, exists t',
    fold_left
      (fun result term =>
         sub true (lit term) (get AMBIGUOUS_REPLACEMENTS term []) result)
      terms (p ++ t)
    = p ++ t'.
Proof.
  induction 1 as [| w terms Hw _ IH]; intros t.
  - exists t. reflexivity.
  - cbn [fold_left].
    destruct (sub_dead true (lit w) (get AMBIGUOUS_REPLACEMENTS w []) p t (Hw t))
      as [t1 E].
    rewrite E. apply IH.
Qed.

(** No ambiguous term starts inside the heading and the space after
    it. *)
Lemma heading_has_no_term :
  Forall (fun w => forall t i, (i < length (heading ++ [32%N]))%nat ->
            m true (lit w)
              (last_char None (firstn i (heading ++ [32])),
               skipn i (heading ++ [32]) ++ t) = [])
         (longest_first AMBIGUOUS_TERMS).
Proof.
  let l := eval vm_compute in (longest_first AMBIGUOUS_TERMS) in
  change (longest_first AMBIGUOUS_TERMS) with l.
  repeat (apply Forall_cons; [intros t; dead |]).
  apply Forall_nil.
Qed.

Lemma tidy_keeps_head (c : char) (t : str) :
  c = 32 \/ c = 10 ->
  exists c' t',
    sub false SPACES (txt " ")
      (sub false NEWLINE_SPACES nl
         (sub false SPACES_NEWLINE nl (heading ++ c :: t)))
    = heading ++ c' :: t'
    /\ (c' = 32 \/ c' = 10).
Proof.
  intros Hc.
  assert (H1 : exists c1 t1,
             sub false SPACES_NEWLINE nl (heading ++ c :: t)
             = heading ++ c1 :: t1 /\ (c1 = 32 \/ c1 = 10)).
  { assert (Hd : forall i, (i < length heading)%nat ->
               m false SPACES_NEWLINE
                 (last_char None (firstn i heading), skipn i heading ++ c :: t)
               = []) by (destruct Hc as [-> | ->]; dead).
    destruct (sub_head false SPACES_NEWLINE 10 [] heading c t Hd)
      as [c1 [t1 [E H]]].
    exists c1, t1. split; [exact E |].
    destruct H as [-> | ->]; auto. }
  destruct H1 as [c1 [t1 [-> Hc1]]].
  assert (H2 : exists c2 t2,
             sub false NEWLINE_SPACES nl (heading ++ c1 :: t1)
             = heading ++ c2 :: t2 /\ (c2 = 32 \/ c2 = 10)).
  { assert (Hd : forall i, (i < length heading)%nat ->
               m false NEWLINE_SPACES
                 (last_char None (firstn i heading), skipn i heading ++ c1 :: t1)
               = []) by (destruct Hc1 as [-> | ->]; dead).
    destruct (sub_head false NEWLINE_SPACES 10 [] heading c1 t1 Hd)
      as [c2 [t2 [E H]]].
    exists c2, t2. split; [exact E |].
    destruct H as [-> | ->]; auto. }
  destruct H2 as [c2 [t2 [-> Hc2]]].
  assert (Hd : forall i, (i < length heading)%nat ->
             m false SPACES
               (last_char None (firstn i heading), skipn i heading ++ c2 :: t2)
             = []) by (destruct Hc2 as [-> | ->]; dead).
  destruct (sub_head false SPACES 32 [] heading c2 t2 Hd) as [c3 [t3 [E H]]].
  exists c3, t3. split; [exact E |].
  destruct H as [-> | ->]; auto.
Qed.

(** The replacement of the ambiguous terms keeps the heading, and leaves
    a space or a line break after it, or nothing. *)
Lemma replace_keeps_head (t : str) :
  exists u,
    _replace_ambiguous_terms (heading ++ 32 :: t) = heading ++ u
    /\ (u = [] \/ exists c y, u = c :: y /\ (c = 32 \/ c = 10)).
Proof.
  unfold _replace_ambiguous_terms. cbv zeta.
  change (heading ++ 32 :: t) with ((heading ++ [32]) ++ t).
  destruct (terms_keep_head (heading ++ [32]) _ heading_has_no_term t)
    as [t1 ->].
  change ((heading ++ [32]) ++ t1) with (heading ++ 32 :: t1).
  destruct (tidy_keeps_head 32 t1 (or_introl eq_refl)) as [c [t2 [E Hc]]].
  match goal with
  | |- context [strip ?x] =>
      assert (Ex : x = heading ++ c :: t2) by exact E; rewrite Ex; clear Ex
  end.
  rewrite strip_app; [| vm_compute; reflexivity | discriminate].
  exists (rstrip (c :: t2)). split; [reflexivity |].
  destruct (rstrip_prefix (c :: t2)) as [dropped Hd].
  destruct (rstrip (c :: t2)) as [| c' y]; [left; reflexivity |].
  right. exists c', y. split; [reflexivity |].
  cbn [app] in Hd. injection Hd as -> _. exact Hc.
Qed.

Lemma role_line_head (keywords : list str) :
  exists t, _build_role_line keywords = txt "You are a" ++ t.
Proof.
  unfold _build_role_line.
  repeat match goal with
         | |- context [if ?b then _ else _] => destruct b
         end;
    eexists; vm_compute; reflexivity.
Qed.

(** A rewritten prompt opens with the heading, and a space or a line
    break follows it, or nothing. *)
Lemma rewrite_head (a : Analysis) (text : str) :
  exists u,
    rewrite_prompt (Some a) text = Return (heading ++ u)
    /\ (u = [] \/ exists c y, u = c :: y /\ (c = 32 \/ c = 10)).
Proof.
  destruct (rewrite_prompt_returns a text) as [focus [audience [_ [_ ->]]]].
  unfold sections_of. cbn [join].
  destruct (role_line_head (_extract_keywords (or_empty text) 6)) as [t ->].
  match goal with
  | |- context [strip ((_ ++ _ ++ _ ++ t) ++ ?rest)] =>
      change ((txt "Role:" ++ nl ++ txt "You are a" ++ t) ++ rest)
        with ((heading ++ txt " a") ++ t ++ rest)
  end.
  rewrite strip_app; [| vm_compute; reflexivity | discriminate].
  match goal with
  | |- context [(heading ++ txt " a") ++ ?x] =>
      change ((heading ++ txt " a") ++ x) with (heading ++ 32 :: 97 :: x)
  end.
  destruct (replace_keeps_head (97 :: rstrip (t ++ (nl ++ nl) ++
     join (nl ++ nl)
       [txt "Task:" ++ nl ++ _build_task_line focus;
        _build_inputs_section focus audience (or_empty text);
        _build_constraints_section; _build_format_section;
        _build_steps_section focus; _build_success_section;
        _build_refusal_section]))) as [u [E Hu]].
  exists u. split; [| exact Hu].
  cbn [join] in E. rewrite <- E. reflexivity.
Qed.

Lemma task_only_at_start (s : str) : forall c : char,
  search_from true TASK_PATTERN (Some c) s = false.
Proof.
  induction s as [| d s IH]; intros c; rewrite search_from_eq.
  - reflexivity.
  - change (m true TASK_PATTERN (Some c, d :: s)) with (@nil cursor).
    apply IH.
Qed.

End RewriteHead.

(** X16.  ([rewrite_prompt], [_build_role_line],
    [_replace_ambiguous_terms], [analyze_prompt], [ROLE_PATTERN].)  The analysis of a rewritten prompt
    finds a role statement, whatever the prompt was: the rewrite opens with
    the role line, whose [You are] no replacement and no clean-up
    touches. *)
Theorem rewritten_prompt_has_role {U : Unicode} (a : Analysis) (text : str) :
  exists out,
    rewrite_prompt (Some a) text = Return out
    /\ has_role (checks (analyze_prompt out)) = true.
Proof.
  destruct (rewrite_head a text) as [u [E Hu]].
  exists (heading ++ u). split; [exact E |].
  rewrite analyze_has_role. unfold search.
  change (heading ++ u) with ((txt "Role:" ++ nl) ++ (txt "You are" ++ u)).
  apply search_from_app.
  destruct Hu as [-> | [c [y [-> [-> | ->]]]]];
    intros H; vm_compute in H; discriminate H.
Qed.

(** X17.  ([rewrite_prompt], [_replace_ambiguous_terms], [analyze_prompt],
    [TASK_PATTERN].)  The analysis of a rewritten prompt never finds a
    task: the task pattern looks for its verb at the start of the text
    only, and the rewrite starts with [Role:]. *)
Theorem rewritten_prompt_lacks_task {U : Unicode} (a : Analysis) (text : str) :
  exists out,
    rewrite_prompt (Some a) text = Return out
    /\ has_task (checks (analyze_prompt out)) = false.
Proof.
  destruct (rewrite_head a text) as [u [E Hu]].
  exists (heading ++ u). split; [exact E |].
  rewrite analyze_has_task. unfold search. rewrite search_from_eq.
  assert (Em : m true TASK_PATTERN (None, heading ++ u) = [])
    by (vm_compute; reflexivity).
  rewrite_m Em.
  change (heading ++ u) with (82 :: (skipn 1 heading ++ u)).
  apply task_only_at_start.
Qed.
